(** * Nourish.AI: the live scan loop, the analysis invoker and the villain
      term matcher

    A shallow embedding of
    - [TextWithVillains] / [LiveTextWithVillains] (the term matcher used to
      highlight villain names inside result text),
    - [handleGeminiError], [analyzeImage], [analyzeText] (services/geminiService),
    - the capture-and-analyze interval of [LiveScanner] together with the
      persona handlers [handlePersonaClick] and [confirmSubOption].

    JavaScript strings are modelled as lists of ASCII characters; the
    development therefore covers ASCII text, on which [toLowerCase] and the
    [i] flag of a regular expression agree.  Timestamps ([Date.now()]) are
    integers in milliseconds. *)

From Equations Require Import Equations.
From Stdlib Require Import ZArith Arith Lia Ascii String Bool List.
From Stdlib Require Import Permutation Sorted.
Import ListNotations.
Open Scope list_scope.


(** ** JavaScript strings *)

Module JS.

Definition str := list ascii.

(** Literals are written [s "..."]. *)
Definition s (x : string) : str := list_ascii_of_string x.

Definition quote : ascii := ascii_of_nat 34.
Definition backslash : ascii := ascii_of_nat 92.

Definition str_eqb (a b : str) : bool :=
  if list_eq_dec ascii_dec a b then true else false.

(** [String.prototype.toLowerCase], on ASCII. *)
Definition toLowerChar (c : ascii) : ascii :=
  let n := nat_of_ascii c in
  if (65 <=? n) && (n <=? 90) then ascii_of_nat (n + 32) else c.

Definition toLowerCase (x : str) : str := map toLowerChar x.

(** [x.startsWith(needle)] and [x.includes(needle)], both case-sensitive. *)
Fixpoint startsWith (needle x : str) : bool :=
  match needle, x with
  | [], _ => true
  | a :: needle', b :: x' => Ascii.eqb a b && startsWith needle' x'
  | _ :: _, [] => false
  end.

Fixpoint includes (x needle : str) : bool :=
  startsWith needle x ||
  match x with
  | [] => false
  | _ :: x' => includes x' needle
  end.

(** [String.prototype.trim] strips leading and trailing white space; on
    ASCII that is TAB, LF, VT, FF, CR and SPACE. *)
Definition isWhite (c : ascii) : bool :=
  let n := nat_of_ascii c in ((9 <=? n) && (n <=? 13)) || (n =? 32).

Fixpoint trimStart (x : str) : str :=
  match x with
  | c :: x' => if isWhite c then trimStart x' else x
  | [] => []
  end.

Definition trim (x : str) : str := rev (trimStart (rev (trimStart x))).

End JS.

Import JS.

(** ** The term matcher *)

Module TermMatcher.

(** [interface Villain { name: string; explanation: string }] *)
Record Villain := { name : str; explanation : str }.

(** One rendered child of the outer [<span>]: either the bare string [part]
    or a clickable [<span>] around [part] that carries the villain found
    for it. *)
Inductive Span :=
| Plain (text : str)
| Match (text : str) (villain : Villain).

Definition span_text (sp : Span) : str :=
  match sp with
  | Plain t => t
  | Match t _ => t
  end.

Definition is_match (sp : Span) : bool :=
  match sp with
  | Plain _ => false
  | Match _ _ => true
  end.

(** The text obtained by concatenating the span texts in order. *)
Definition texts (spans : list Span) : str := concat (map span_text spans).

(** [[...villains].sort((a, b) => b.name.length - a.name.length)]:
    [Array.prototype.sort] is stable, so the result is the stable
    arrangement by name length, longest first.  [insert_desc v l] puts [v]
    in front of the first element that is not strictly longer. *)
Fixpoint insert_desc (v : Villain) (l : list Villain) : list Villain :=
  match l with
  | [] => [v]
  | w :: l' =>
      if length (name v) <? length (name w) then w :: insert_desc v l'
      else v :: l
  end.

Fixpoint sortedVillains (villains : list Villain) : list Villain :=
  match villains with
  | [] => []
  | v :: rest => insert_desc v (sortedVillains rest)
  end.

(** [escapeRegExp]: [string.replace(/[.*+?^${}()|[\]\\]/g, '\\$&')] puts a
    backslash in front of every character with a meaning in a pattern. *)
Definition specials : str := s ".*+?^${}()|[]" ++ [backslash].

Definition isSpecial (c : ascii) : bool := existsb (Ascii.eqb c) specials.

Definition escapeRegExp (x : str) : str :=
  flat_map (fun c => if isSpecial c then [backslash; c] else [c]) x.

(** [Array.prototype.join] *)
Fixpoint join (sep : str) (l : list str) : str :=
  match l with
  | [] => []
  | [x] => x
  | x :: l' => x ++ sep ++ join sep l'
  end.

(** The source text of the pattern:
    [`(${sortedVillains.map(v => escapeRegExp(v.name)).join('|')})`]. *)
Definition pattern_source (sorted : list Villain) : str :=
  s "(" ++ join (s "|") (map (fun v => escapeRegExp (name v)) sorted) ++ s ")".

(** What [new RegExp(source, 'gi')] makes of such a source: one capturing
    group around an alternation of literal strings, compared without case.
    The compiled pattern is represented by the ordered list of its
    alternatives; [read_alts] reads them off the source, a backslash making
    the next character literal.  Sources outside this fragment do not
    arise and are given no alternative. *)
Fixpoint read_alts (cur x : str) : option (list str) :=
  match x with
  | [] => None
  | c :: x' =>
      if Ascii.eqb c backslash then
        match x' with
        | d :: x'' => read_alts (cur ++ [d]) x''
        | [] => None
        end
      else if Ascii.eqb c "|"%char then option_map (cons cur) (read_alts [] x')
      else if Ascii.eqb c ")"%char then
        match x' with
        | [] => Some [cur]
        | _ :: _ => None
        end
      else if isSpecial c then None
      else read_alts (cur ++ [c]) x'
  end.

Definition alternatives (source : str) : list str :=
  match source with
  | c :: x =>
      if Ascii.eqb c "("%char
      then match read_alts [] x with
           | Some alts => alts
           | None => []
           end
      else []
  | [] => []
  end.

(** [prefix_ci a rest]: alternative [a] matches at the start of [rest]. *)
Fixpoint prefix_ci (a rest : str) : bool :=
  match a, rest with
  | [], _ => true
  | x :: a', y :: rest' =>
      Ascii.eqb (toLowerChar x) (toLowerChar y) && prefix_ci a' rest'
  | _ :: _, [] => false
  end.

(** One anchored attempt of the pattern at the start of [rest]: the
    alternatives are tried left to right and the first that matches wins.
    The result is the length of the match. *)
Fixpoint exec_sticky (alts : list str) (rest : str) : option nat :=
  match alts with
  | [] => None
  | a :: alts' =>
      if prefix_ci a rest then Some (length a) else exec_sticky alts' rest
  end.

(** The loop of [String.prototype.split] with a pattern made of one
    capturing group.  [pending] is the text between the end [p] of the last
    match and the scan position [q]; [rest] is the text from [q] on.
    - no match at [q]: [q] advances by one character;
    - an empty match with [p = q]: [q] advances by one character;
    - an empty match with [p < q]: [pending] and the empty capture are
      pushed, and the next attempt (again empty, now with [p = q]) advances;
    - a match of [n > 0] characters: [pending] and the capture are pushed
      and the scan resumes after the match.
    At the end of the text the remaining [pending] is pushed. *)
Equations? split_loop (alts : list str) (pending rest : str) : list str
  by wf (length rest) lt :=
  split_loop alts pending [] := [pending];
  split_loop alts pending (c :: rest') with exec_sticky alts (c :: rest') => {
    | None := split_loop alts (pending ++ [c]) rest';
    | Some 0 with pending => {
        | [] := split_loop alts [c] rest';
        | _ :: _ := pending :: [] :: split_loop alts [c] rest' };
    | Some (S n) :=
        pending :: firstn (S n) (c :: rest')
                :: split_loop alts [] (skipn n rest') }.
Proof.
  all: simpl; try lia.
  pose proof (length_skipn n rest'); lia.
Qed.

(** [text.split(pattern)]: on the empty text the result is the empty array
    when the pattern matches the empty string, and the array holding the
    empty string alone otherwise. *)
Definition split (alts : list str) (text : str) : list str :=
  match text with
  | [] => match exec_sticky alts [] with
          | Some _ => []
          | None => [[]]
          end
  | _ :: _ => split_loop alts [] text
  end.

(** The body of [parts.map]:
    [sortedVillains.find(v => v.name.toLowerCase() === part.toLowerCase())]. *)
Definition matchedVillain (sorted : list Villain) (part : str) : option Villain :=
  find (fun v => str_eqb (toLowerCase (name v)) (toLowerCase part)) sorted.

Definition render_part (sorted : list Villain) (part : str) : Span :=
  match matchedVillain sorted part with
  | Some v => Match part v
  | None => Plain part
  end.

(** [TextWithVillains({ text, villains })].  [villains = None] stands for a
    missing ([undefined] / [null]) prop. *)
Definition TextWithVillains (text : str) (villains : option (list Villain))
  : list Span :=
  match villains with
  | None | Some [] => [Plain text]
  | Some vs =>
      let sorted := sortedVillains vs in
      let pattern := alternatives (pattern_source sorted) in
      let parts := split pattern text in
      map (render_part sorted) parts
  end.

(** The live view carries its own copy of the component. *)
Definition LiveTextWithVillains (text : str) (villains : option (list Villain))
  : list Span :=
  match villains with
  | None | Some [] => [Plain text]
  | Some vs =>
      let sorted := sortedVillains vs in
      let pattern := alternatives (pattern_source sorted) in
      let parts := split pattern text in
      map (render_part sorted) parts
  end.

(** The matcher of the specification: a list of terms is always supplied. *)
Definition matcher (text : str) (terms : list Villain) : list Span :=
  TextWithVillains text (Some terms).

Definition term (n : string) : Villain := {| name := s n; explanation := [] |}.

(** *** Vocabulary of the properties *)

(** Equality of strings up to case. *)
Definition ci_eq (a b : str) : Prop := toLowerCase a = toLowerCase b.

(** [name] occurs in [text] at offset [i], compared without case. *)
Definition occurs_at (name text : str) (i : nat) : Prop :=
  prefix_ci name (skipn i text) = true.

(** Longest first. *)
Definition longer_first (a b : str) : Prop := length b <= length a.

Definition by_length (v w : Villain) : Prop :=
  length (name w) <= length (name v).

(** [pending] holds no match: it is empty, or no non-empty alternative
    matches where it begins. *)
Definition clean (alts : list str) (pending rest : str) : Prop :=
  pending = [] \/
  forall b, In b alts -> b <> [] -> prefix_ci b (pending ++ rest) = false.

(** The occurrence of [n] characters at offset [i] lies inside one [Match]
    span; [off] is the offset at which [spans] begins. *)
Fixpoint inside_match_from (off : nat) (spans : list Span) (i n : nat) : bool :=
  match spans with
  | [] => false
  | sp :: rest =>
      (is_match sp && (off <=? i) && (i + n <=? off + length (span_text sp)))
      || inside_match_from (off + length (span_text sp)) rest i n
  end.

Definition inside_match (spans : list Span) (i n : nat) : bool :=
  inside_match_from 0 spans i n.

End TermMatcher.

(** ** The analysis invoker (services/geminiService) *)

Module Invoker.

(** A value produced by [JSON.parse].  Numbers are kept as integers. *)
#[warnings="-register-all"]
Inductive JSON :=
| JNull
| JBool (b : bool)
| JNum (n : Z)
| JStr (x : str)
| JArr (items : list JSON)
| JObj (fields : list (str * JSON)).

(** [AnalysisResult] is a compile-time type only: at run time the value is
    whatever [JSON.parse] returned. *)
Definition AnalysisResult := JSON.

(** What a [throw] carries: a bare string, or an object with an optional
    [message] together with its [JSON.stringify] text. *)
Inductive Thrown :=
| ThrownString (text : str)
| ThrownObject (message : option str) (stringified : str).

(** [new Error(m)]: no enumerable property, so it is stringified as [{}]. *)
Definition Error (m : string) : Thrown := ThrownObject (Some (s m)) (s "{}").

(** An [async] call either fulfils with a value or rejects. *)
Inductive Completion (A : Type) :=
| Return (a : A)
| Throw (e : Thrown).
Arguments Return {A} a.
Arguments Throw {A} e.

(** [analysisSchema.required] *)
Definition required : list str :=
  map s ["summary"; "audioScript"; "shareContent"; "healthScore"; "insights";
         "radarData"; "dietaryClassification"; "tradeoffs"; "uncertainty";
         "villains"]%string.

Definition hasField (fields : list (str * JSON)) (k : str) : bool :=
  existsb (fun kv => str_eqb (fst kv) k) fields.

(** The required-field contract: an object on which every required field is
    present. *)
Definition satisfiesContract (v : JSON) : bool :=
  match v with
  | JObj fields => forallb (hasField fields) required
  | _ => false
  end.

(** [err.message], [undefined] on a thrown string. *)
Definition message_of (e : Thrown) : option str :=
  match e with
  | ThrownString _ => None
  | ThrownObject m _ => m
  end.

(** [typeof error === 'string' ? error
       : (error?.message || JSON.stringify(error))] *)
Definition error_text (e : Thrown) : str :=
  match e with
  | ThrownString t => t
  | ThrownObject (Some (c :: m)) _ => c :: m
  | ThrownObject _ j => j
  end.

(** [handleGeminiError(error): never] always throws; the result is the
    value it throws. *)
Definition handleGeminiError (error : Thrown) : Thrown :=
  let msg := error_text error in
  if includes msg (s "429") || includes msg (s "quota")
     || includes msg (s "RESOURCE_EXHAUSTED")
  then Error "QUOTA_EXCEEDED"
  else error.

(** The request handed to [ai.models.generateContent] and its response. *)
Record Request := {
  model : str;
  inlineData : option (str * str);
  promptText : str
}.

Record Response := { text : option str }.

Definition GEMINI_TEXT_MODEL : str := s "gemini-3-flash-preview".
Definition GEMINI_VISION_MODEL : str := s "gemini-3-flash-preview".

(** [a || b] on optional strings: the empty string is falsy. *)
Definition or_else (a : option str) (b : option str) : option str :=
  match a with
  | Some (c :: x) => Some (c :: x)
  | _ => b
  end.

Definition personaClause (persona : option str) : str :=
  match persona with
  | Some (c :: p) =>
      [ascii_of_nat 10; ascii_of_nat 10] ++ s "USER PERSONA: " ++ (c :: p)
      ++ s ". Adjust summary and insights specifically for this user profile."
  | _ => []
  end.

Section Calls.

(** The platform and the collaborator: [JSON.parse] (which throws a
    [SyntaxError] on malformed text), [process.env.API_KEY], and the single
    network round trip [generateContent]. *)
Variable JSON_parse : str -> Completion JSON.
Variable env_API_KEY : option str.
Variable generateContent : Request -> Completion Response.

Definition finalApiKey (apiKey : option str) : str :=
  trim (match or_else (or_else apiKey env_API_KEY) (Some []) with
        | Some k => k
        | None => []
        end).

(** The body of the [try] block after the response arrived, and the
    [catch] that funnels every exception through [handleGeminiError]. *)
Definition parse_response (r : Completion Response) : Completion AnalysisResult :=
  match r with
  | Throw e => Throw (handleGeminiError e)
  | Return response =>
      match text response with
      | None | Some [] =>
          Throw (handleGeminiError (Error "No response text from Gemini"))
      | Some t =>
          match JSON_parse t with
          | Return v => Return v
          | Throw e => Throw (handleGeminiError e)
          end
      end
  end.

Definition analyzeImage (base64Data mimeType : str) (apiKey persona : option str)
  : Completion AnalysisResult :=
  match finalApiKey apiKey with
  | [] => Throw (Error "API Key is missing. Please provide one in settings.")
  | _ :: _ =>
      let promptText :=
        s "Analyze this food product label or image. Tell me what I'm eating. "
        ++ personaClause persona
        ++ s " Provide a JSON output matching the schema." in
      parse_response
        (generateContent {| model := GEMINI_VISION_MODEL;
                            inlineData := Some (base64Data, mimeType);
                            promptText := promptText |})
  end.

Definition analyzeText (query : str) (apiKey persona : option str)
  : Completion AnalysisResult :=
  match finalApiKey apiKey with
  | [] => Throw (Error "API Key is missing. Please provide one in settings.")
  | _ :: _ =>
      let promptText :=
        s "Analyze this food product/ingredient list: " ++ [ascii_of_nat 34]
        ++ query ++ [ascii_of_nat 34] ++ s ". "
        ++ personaClause persona
        ++ s " Provide a JSON output matching the schema." in
      parse_response
        (generateContent {| model := GEMINI_TEXT_MODEL;
                            inlineData := None;
                            promptText := promptText |})
  end.

End Calls.

(** *** A reference [JSON.parse] for a fragment of JSON

    Objects, arrays, strings without escape sequences, integer literals,
    [true], [false], [null] and white space.  It instantiates [JSON_parse]
    in the closed examples below; the general statements hold for any
    parser. *)

Definition isJsonWhite (c : ascii) : bool :=
  let n := nat_of_ascii c in
  (n =? 32) || (n =? 9) || (n =? 10) || (n =? 13).

Fixpoint skipWhite (x : str) : str :=
  match x with
  | c :: x' => if isJsonWhite c then skipWhite x' else x
  | [] => []
  end.

Definition isDigit (c : ascii) : bool :=
  let n := nat_of_ascii c in (48 <=? n) && (n <=? 57).

(** The characters of a string literal up to its closing quote. *)
Fixpoint stringBody (x : str) : option (str * str) :=
  match x with
  | [] => None
  | c :: x' =>
      if Ascii.eqb c quote then Some ([], x')
      else if Ascii.eqb c backslash || (nat_of_ascii c <? 32) then None
      else match stringBody x' with
           | Some (body, r) => Some (c :: body, r)
           | None => None
           end
  end.

Fixpoint digits (acc : Z) (x : str) : Z * str :=
  match x with
  | c :: x' =>
      if isDigit c
      then digits (10 * acc + Z.of_nat (nat_of_ascii c - 48)) x'
      else (acc, x)
  | [] => (acc, [])
  end.

Definition number (x : str) : option (Z * str) :=
  match x with
  | c :: x' =>
      if Ascii.eqb c "-"%char then
        match x' with
        | d :: _ => if isDigit d
                    then let (n, r) := digits 0 x' in Some (- n, r)%Z
                    else None
        | [] => None
        end
      else if isDigit c then Some (digits 0 x)
      else None
  | [] => None
  end.

Definition keyword (k : string) (v : JSON) (x : str) : option (JSON * str) :=
  if startsWith (s k) x then Some (v, skipn (length (s k)) x) else None.

Fixpoint value (fuel : nat) (x : str) : option (JSON * str) :=
  match fuel with
  | O => None
  | S fuel' =>
      match skipWhite x with
      | [] => None
      | c :: r =>
          if Ascii.eqb c "{"%char then
            match skipWhite r with
            | d :: r' =>
                if Ascii.eqb d "}"%char then Some (JObj [], r')
                else match members fuel' (d :: r') with
                     | Some (fs, r'') => Some (JObj fs, r'')
                     | None => None
                     end
            | [] => None
            end
          else if Ascii.eqb c "["%char then
            match skipWhite r with
            | d :: r' =>
                if Ascii.eqb d "]"%char then Some (JArr [], r')
                else match elements fuel' (d :: r') with
                     | Some (vs, r'') => Some (JArr vs, r'')
                     | None => None
                     end
            | [] => None
            end
          else if Ascii.eqb c quote then
            match stringBody r with
            | Some (body, r') => Some (JStr body, r')
            | None => None
            end
          else if Ascii.eqb c "t"%char then keyword "true" (JBool true) (c :: r)
          else if Ascii.eqb c "f"%char then keyword "false" (JBool false) (c :: r)
          else if Ascii.eqb c "n"%char then keyword "null" JNull (c :: r)
          else match number (c :: r) with
               | Some (n, r') => Some (JNum n, r')
               | None => None
               end
      end
  end

with elements (fuel : nat) (x : str) : option (list JSON * str) :=
  match fuel with
  | O => None
  | S fuel' =>
      match value fuel' x with
      | Some (v, r) =>
          match skipWhite r with
          | c :: r' =>
              if Ascii.eqb c ","%char then
                match elements fuel' r' with
                | Some (vs, r'') => Some (v :: vs, r'')
                | None => None
                end
              else if Ascii.eqb c "]"%char then Some ([v], r')
              else None
          | [] => None
          end
      | None => None
      end
  end

with members (fuel : nat) (x : str) : option (list (str * JSON) * str) :=
  match fuel with
  | O => None
  | S fuel' =>
      match skipWhite x with
      | q :: r =>
          if Ascii.eqb q quote then
            match stringBody r with
            | Some (key, r1) =>
                match skipWhite r1 with
                | c :: r2 =>
                    if Ascii.eqb c ":"%char then
                      match value fuel' r2 with
                      | Some (v, r3) =>
                          match skipWhite r3 with
                          | d :: r4 =>
                              if Ascii.eqb d ","%char then
                                match members fuel' r4 with
                                | Some (fs, r5) => Some ((key, v) :: fs, r5)
                                | None => None
                                end
                              else if Ascii.eqb d "}"%char
                                   then Some ([(key, v)], r4)
                                   else None
                          | [] => None
                          end
                      | None => None
                      end
                    else None
                | [] => None
                end
            | None => None
            end
          else None
      | [] => None
      end
  end.

Definition parseJSON (x : str) : Completion JSON :=
  match value (S (length x)) x with
  | Some (v, r) =>
      match skipWhite r with
      | [] => Return v
      | _ :: _ => Throw (ThrownObject (Some (s "Unexpected token in JSON"))
                                      (s "{}"))
      end
  | None => Throw (ThrownObject (Some (s "Unexpected end of JSON input"))
                                (s "{}"))
  end.

(** *** Vocabulary of the properties *)

(** A payload that is well-formed JSON but carries only a summary. *)
Definition partialPayload : str :=
  s "{" ++ [quote] ++ s "summary" ++ [quote] ++ s ": " ++ [quote]
  ++ s "Looks fine" ++ [quote] ++ s "}".

Definition partialResult : JSON :=
  JObj [(s "summary", JStr (s "Looks fine"))].

(** A collaborator that answers every request with the same text. *)
Definition answering (t : str) : Request -> Completion Response :=
  fun _ => Return {| text := Some t |}.

End Invoker.


(** ** The live scanner (components/LiveScanner) *)

Module Scanner.

Import Invoker.

(** [constants.ts]; the display labels play no role and are left out. *)
Record SubOption := { sub_id : str; prompt : str }.
Record Persona := { id : str; basePrompt : str; subOptions : list SubOption }.

Definition sub (i p : string) : SubOption := {| sub_id := s i; prompt := s p |}.

Definition PERSONAS : list Persona :=
  [ {| id := s "diabetic";
       basePrompt := s "User is Diabetic. Scrutinize Sugar, High Fructose Corn Syrup, and Glycemic Index.";
       subOptions :=
         [ sub "type1" "Strictly identify exact carb counts and fast-acting sugars.";
           sub "type2" "Focus on insulin spikes, weight management, and hidden sugars.";
           sub "prediabetic" "Focus on prevention, low sugar, and whole grains.";
           sub "gestational" "Strict safety for pregnancy and blood sugar control." ] |};
    {| id := s "allergies";
       basePrompt := s "User has severe food allergies. FLAG WARNINGS AGGRESSIVELY.";
       subOptions :=
         [ sub "gluten" "Flag Wheat, Barley, Rye, Malt, and potential cross-contamination.";
           sub "dairy" "Flag Milk, Whey, Casein, Cheese, and Butter.";
           sub "nuts" "Flag Peanuts, Almonds, Walnuts, Cashews, and processing facilities.";
           {| sub_id := s "shellfish";
              prompt := s "Flag Shrimp, Crab, Lobster, and vague " ++ [quote]
                        ++ s "fish" ++ [quote] ++ s " ingredients." |};
           sub "soy" "Flag Soy lecithin, Tofu, Edamame, and TVP." ] |};
    {| id := s "muscle";
       basePrompt := s "User is focused on fitness and bodybuilding.";
       subOptions :=
         [ sub "bulking" "Focus on high calories, high protein, and carb quality for energy.";
           sub "cutting" "Focus on high protein, low calorie, low fat, and satiety.";
           sub "maintenance" "Focus on balanced macros and clean ingredients." ] |};
    {| id := s "kids";
       basePrompt := s "User is a parent buying for a child. Strict on safety and chemicals.";
       subOptions :=
         [ sub "toddler" "Check for choking hazards, strict salt limits, and zero added sugar.";
           sub "school" "Check for hyperactivity triggers (Red 40, Yellow 5) and high sugar.";
           sub "teen" "Focus on energy, acne triggers (dairy/grease), and growth nutrients." ] |} ].

(** The React state of [LiveScanner] that the scan loop reads or writes,
    with the ref [lastAnalysisTimeRef.current]. *)
Record State := {
  isStreaming : bool;
  isAnalyzing : bool;
  isCoolingDown : bool;
  result : option AnalysisResult;
  error : option str;
  lastAnalysisTimeRef : Z;
  activePersonaId : option str;
  activeSubOptionId : option str;
  pendingPersonaId : option str;
  activeVillain : option TermMatcher.Villain;
  isPlayingAudio : bool
}.

(** [useState] / [useRef] initial values. *)
Definition initial : State :=
  {| isStreaming := false; isAnalyzing := false; isCoolingDown := false;
     result := None; error := None; lastAnalysisTimeRef := 0;
     activePersonaId := None; activeSubOptionId := None;
     pendingPersonaId := None; activeVillain := None;
     isPlayingAudio := false |}.

Definition setIsStreaming (b : bool) (st : State) : State :=
  {| isStreaming := b; isAnalyzing := isAnalyzing st;
     isCoolingDown := isCoolingDown st; result := result st;
     error := error st; lastAnalysisTimeRef := lastAnalysisTimeRef st;
     activePersonaId := activePersonaId st;
     activeSubOptionId := activeSubOptionId st;
     pendingPersonaId := pendingPersonaId st;
     activeVillain := activeVillain st;
     isPlayingAudio := isPlayingAudio st |}.

Definition setIsAnalyzing (b : bool) (st : State) : State :=
  {| isStreaming := isStreaming st; isAnalyzing := b;
     isCoolingDown := isCoolingDown st; result := result st;
     error := error st; lastAnalysisTimeRef := lastAnalysisTimeRef st;
     activePersonaId := activePersonaId st;
     activeSubOptionId := activeSubOptionId st;
     pendingPersonaId := pendingPersonaId st;
     activeVillain := activeVillain st;
     isPlayingAudio := isPlayingAudio st |}.

Definition setIsCoolingDown (b : bool) (st : State) : State :=
  {| isStreaming := isStreaming st; isAnalyzing := isAnalyzing st;
     isCoolingDown := b; result := result st;
     error := error st; lastAnalysisTimeRef := lastAnalysisTimeRef st;
     activePersonaId := activePersonaId st;
     activeSubOptionId := activeSubOptionId st;
     pendingPersonaId := pendingPersonaId st;
     activeVillain := activeVillain st;
     isPlayingAudio := isPlayingAudio st |}.

Definition setResult (r : option AnalysisResult) (st : State) : State :=
  {| isStreaming := isStreaming st; isAnalyzing := isAnalyzing st;
     isCoolingDown := isCoolingDown st; result := r;
     error := error st; lastAnalysisTimeRef := lastAnalysisTimeRef st;
     activePersonaId := activePersonaId st;
     activeSubOptionId := activeSubOptionId st;
     pendingPersonaId := pendingPersonaId st;
     activeVillain := activeVillain st;
     isPlayingAudio := isPlayingAudio st |}.

Definition setError (e : option str) (st : State) : State :=
  {| isStreaming := isStreaming st; isAnalyzing := isAnalyzing st;
     isCoolingDown := isCoolingDown st; result := result st;
     error := e; lastAnalysisTimeRef := lastAnalysisTimeRef st;
     activePersonaId := activePersonaId st;
     activeSubOptionId := activeSubOptionId st;
     pendingPersonaId := pendingPersonaId st;
     activeVillain := activeVillain st;
     isPlayingAudio := isPlayingAudio st |}.

Definition setLastAnalysisTimeRef (t : Z) (st : State) : State :=
  {| isStreaming := isStreaming st; isAnalyzing := isAnalyzing st;
     isCoolingDown := isCoolingDown st; result := result st;
     error := error st; lastAnalysisTimeRef := t;
     activePersonaId := activePersonaId st;
     activeSubOptionId := activeSubOptionId st;
     pendingPersonaId := pendingPersonaId st;
     activeVillain := activeVillain st;
     isPlayingAudio := isPlayingAudio st |}.

Definition setActivePersonaId (p : option str) (st : State) : State :=
  {| isStreaming := isStreaming st; isAnalyzing := isAnalyzing st;
     isCoolingDown := isCoolingDown st; result := result st;
     error := error st; lastAnalysisTimeRef := lastAnalysisTimeRef st;
     activePersonaId := p;
     activeSubOptionId := activeSubOptionId st;
     pendingPersonaId := pendingPersonaId st;
     activeVillain := activeVillain st;
     isPlayingAudio := isPlayingAudio st |}.

Definition setActiveSubOptionId (p : option str) (st : State) : State :=
  {| isStreaming := isStreaming st; isAnalyzing := isAnalyzing st;
     isCoolingDown := isCoolingDown st; result := result st;
     error := error st; lastAnalysisTimeRef := lastAnalysisTimeRef st;
     activePersonaId := activePersonaId st;
     activeSubOptionId := p;
     pendingPersonaId := pendingPersonaId st;
     activeVillain := activeVillain st;
     isPlayingAudio := isPlayingAudio st |}.

Definition setPendingPersonaId (p : option str) (st : State) : State :=
  {| isStreaming := isStreaming st; isAnalyzing := isAnalyzing st;
     isCoolingDown := isCoolingDown st; result := result st;
     error := error st; lastAnalysisTimeRef := lastAnalysisTimeRef st;
     activePersonaId := activePersonaId st;
     activeSubOptionId := activeSubOptionId st;
     pendingPersonaId := p;
     activeVillain := activeVillain st;
     isPlayingAudio := isPlayingAudio st |}.

Definition setActiveVillain (v : option TermMatcher.Villain) (st : State) : State :=
  {| isStreaming := isStreaming st; isAnalyzing := isAnalyzing st;
     isCoolingDown := isCoolingDown st; result := result st;
     error := error st; lastAnalysisTimeRef := lastAnalysisTimeRef st;
     activePersonaId := activePersonaId st;
     activeSubOptionId := activeSubOptionId st;
     pendingPersonaId := pendingPersonaId st;
     activeVillain := v;
     isPlayingAudio := isPlayingAudio st |}.

Definition setIsPlayingAudio (b : bool) (st : State) : State :=
  {| isStreaming := isStreaming st; isAnalyzing := isAnalyzing st;
     isCoolingDown := isCoolingDown st; result := result st;
     error := error st; lastAnalysisTimeRef := lastAnalysisTimeRef st;
     activePersonaId := activePersonaId st;
     activeSubOptionId := activeSubOptionId st;
     pendingPersonaId := pendingPersonaId st;
     activeVillain := activeVillain st;
     isPlayingAudio := b |}.

(** Truthiness of a [string | null]: [null] and the empty string are falsy. *)
Definition truthy (x : option str) : bool :=
  match x with
  | Some (_ :: _) => true
  | _ => false
  end.

Definition is_some {A} (x : option A) : bool :=
  match x with
  | Some _ => true
  | None => false
  end.

(** What a tick finds when it looks at the camera: whether both refs are
    set, whether [video.readyState === HAVE_ENOUGH_DATA], whether
    [canvas.getContext('2d')] gave a context, and the captured frame. *)
Record Frame := {
  refsPresent : bool;
  enoughData : bool;
  ctxPresent : bool;
  base64Data : str
}.

(** A call of [analyzeImage] that has been issued and awaits its response.
    [inv_context] is the persona context ([activePersonaId],
    [activeSubOptionId]) of the render whose closure issued the call. *)
Record Invocation := {
  inv_base64 : str;
  inv_mimeType : str;
  inv_apiKey : str;
  inv_persona : option str;
  inv_context : option str * option str
}.

(** The persona prompt looked up in [PERSONAS]:
    [`${p.basePrompt} SPECIFIC CONTEXT: ${s.prompt}`]. *)
Definition personaPrompt (st : State) : option str :=
  if truthy (activePersonaId st) && truthy (activeSubOptionId st) then
    match activePersonaId st, activeSubOptionId st with
    | Some pid, Some sid =>
        match find (fun x => str_eqb (id x) pid) PERSONAS with
        | Some p =>
            match find (fun x => str_eqb (sub_id x) sid) (subOptions p) with
            | Some so =>
                Some (basePrompt p ++ s " SPECIFIC CONTEXT: " ++ prompt so)
            | None => None
            end
        | None => None
        end
    | _, _ => None
    end
  else None.

Section Loop.

(** The [apiKey] prop. *)
Variable apiKey : str.

(** The guard of the capture-and-analyze effect: while it fails no interval
    is registered. *)
Definition scanning (st : State) : bool :=
  isStreaming st && negb (str_eqb apiKey []) && negb (truthy (pendingPersonaId st))
  && negb (is_some (activeVillain st)) && negb (isPlayingAudio st).

(** The cooldown check at the head of the interval callback.  The second
    component tells whether the callback goes on. *)
Definition cooldown_check (now : Z) (st : State) : State * bool :=
  if isCoolingDown st then
    if (now >? lastAnalysisTimeRef st + 3000)%Z
    then (setError None (setIsCoolingDown false st), true)
    else (st, false)
  else (st, true).

(** The call of [analyzeImage] made by the callback. *)
Definition issued (frame : Frame) (st : State) : Invocation :=
  {| inv_base64 := base64Data frame;
     inv_mimeType := s "image/jpeg";
     inv_apiKey := apiKey;
     inv_persona := personaPrompt st;
     inv_context := (activePersonaId st, activeSubOptionId st) |}.

(** The interval callback up to its [await]: the state it leaves and the
    invocation it issued, if any.  [isAnalyzing] and [isCoolingDown] are the
    values of the render the interval was registered in; the effect lists
    both as dependencies, so they are the current ones. *)
Definition tick (now : Z) (frame : Frame) (st : State)
  : State * option Invocation :=
  if negb (scanning st) then (st, None)
  else
    let (st1, go) := cooldown_check now st in
    if negb go then (st1, None)
    else if isAnalyzing st || (now - lastAnalysisTimeRef st <? 3000)%Z
    then (st1, None)
    else if negb (refsPresent frame) then (st1, None)
    else if negb (enoughData frame) then (st1, None)
    else if negb (ctxPresent frame)
    then (setIsAnalyzing false (setIsAnalyzing true st1), None)
    else (setIsAnalyzing true st1, Some (issued frame st)).

End Loop.

(** [err.message === 'QUOTA_EXCEEDED'] *)
Definition isQuota (err : Thrown) : bool :=
  match message_of err with
  | Some m => str_eqb m (s "QUOTA_EXCEEDED")
  | None => false
  end.

(** The rest of the callback, run when the awaited call settles at time
    [now]: the tail of the [try] block, the [catch] and the [finally]. *)
Definition resolve (outcome : Completion AnalysisResult) (now : Z) (st : State)
  : State :=
  let st1 :=
    match outcome with
    | Return data => setLastAnalysisTimeRef now (setResult (Some data) st)
    | Throw err =>
        if isQuota err then
          setLastAnalysisTimeRef (now + 10000)
            (setIsCoolingDown true
               (setError (Some (s "High traffic. Slowing down...")) st))
        else st
    end in
  setIsAnalyzing false st1.

Definition opt_eqb (a : option str) (b : str) : bool :=
  match a with
  | Some x => str_eqb x b
  | None => false
  end.

Definition handlePersonaClick (personaId : str) (st : State) : State :=
  if opt_eqb (activePersonaId st) personaId
  then setResult None (setActiveSubOptionId None (setActivePersonaId None st))
  else setPendingPersonaId (Some personaId) st.

Definition confirmSubOption (subId : str) (st : State) : State :=
  if truthy (pendingPersonaId st) then
    setResult None
      (setPendingPersonaId None
         (setActiveSubOptionId (Some subId)
            (setActivePersonaId (pendingPersonaId st) st)))
  else st.

(** [handlePlayAudio(text)], as far as the state goes. *)
Definition handlePlayAudio (text : str) (st : State) : State :=
  match text with
  | [] => st
  | _ :: _ => setIsPlayingAudio (negb (isPlayingAudio st)) st
  end.

(** The scanner together with the calls that are awaiting their response. *)
Record World := { ui : State; inflight : list Invocation }.

Inductive Event :=
| CameraStarted
| Tick (now : Z) (frame : Frame)
| Resolve (k : nat) (outcome : Completion AnalysisResult) (now : Z)
| PersonaClick (personaId : str)
| ConfirmSubOption (subId : str)
| CloseOverlay
| VillainClick (v : TermMatcher.Villain)
| VillainTimeout
| PlayAudio (text : str)
| AudioEnd.

Fixpoint remove_nth {A} (k : nat) (l : list A) : list A :=
  match k, l with
  | _, [] => []
  | O, _ :: l' => l'
  | S k', x :: l' => x :: remove_nth k' l'
  end.

Definition step (apiKey : str) (e : Event) (w : World) : World :=
  match e with
  | CameraStarted => {| ui := setIsStreaming true (ui w); inflight := inflight w |}
  | Tick now frame =>
      let (st, started) := tick apiKey now frame (ui w) in
      {| ui := st;
         inflight := match started with
                     | Some inv => inflight w ++ [inv]
                     | None => inflight w
                     end |}
  | Resolve k outcome now =>
      match nth_error (inflight w) k with
      | Some _ => {| ui := resolve outcome now (ui w);
                     inflight := remove_nth k (inflight w) |}
      | None => w
      end
  | PersonaClick p => {| ui := handlePersonaClick p (ui w); inflight := inflight w |}
  | ConfirmSubOption x => {| ui := confirmSubOption x (ui w); inflight := inflight w |}
  | CloseOverlay => {| ui := setPendingPersonaId None (ui w); inflight := inflight w |}
  | VillainClick v => {| ui := setActiveVillain (Some v) (ui w); inflight := inflight w |}
  | VillainTimeout => {| ui := setActiveVillain None (ui w); inflight := inflight w |}
  | PlayAudio t => {| ui := handlePlayAudio t (ui w); inflight := inflight w |}
  | AudioEnd => {| ui := setIsPlayingAudio false (ui w); inflight := inflight w |}
  end.

Definition run (apiKey : str) (events : list Event) (w : World) : World :=
  fold_left (fun w e => step apiKey e w) events w.

Definition start : World := {| ui := initial; inflight := [] |}.

(** *** Vocabulary of the properties *)

(** A camera that is ready, and a scanner that is streaming with nothing
    in the way of the scan loop. *)
Definition ready : Frame :=
  {| refsPresent := true; enoughData := true; ctxPresent := true;
     base64Data := s "AAAA" |}.

Definition key : str := s "k".

Definition streaming : State := setIsStreaming true initial.

Definition quotaError : Thrown := Error "QUOTA_EXCEEDED".

Definition networkError : Thrown := Error "Failed to fetch".

Definition usable (frame : Frame) : bool :=
  refsPresent frame && enoughData frame && ctxPresent frame.

(** The single-flight invariant: exactly the calls announced by
    [isAnalyzing] are awaiting a response. *)
Definition single_flight (w : World) : Prop :=
  length (inflight w) = if isAnalyzing (ui w) then 1 else 0.

End Scanner.

(** ** Further vocabulary *)

Module Notions.

Import Invoker Scanner TermMatcher.

(** The value of [apiKey || process.env.API_KEY || ""] before trimming. *)
Definition chosenKey (apiKey env : option str) : str :=
  match or_else (or_else apiKey env) (Some []) with
  | Some k => k
  | None => []
  end.

(** A string made of white space only. *)
Definition blank (k : str) : bool := forallb isWhite k.

(** A string that does not begin with white space. *)
Definition clean_start (x : str) : Prop :=
  match x with
  | [] => True
  | c :: _ => isWhite c = false
  end.

Definition missingKey : Thrown :=
  Error "API Key is missing. Please provide one in settings.".

Definition noResponseText : Thrown := Error "No response text from Gemini".

(** The test of [handleGeminiError] on the text of an error. *)
Definition quotaMarker (msg : str) : bool :=
  includes msg (s "429") || includes msg (s "quota")
  || includes msg (s "RESOURCE_EXHAUSTED").

(** The request built by [analyzeImage]. *)
Definition imageRequest (base64Data mimeType : str) (persona : option str)
  : Request :=
  {| model := GEMINI_VISION_MODEL;
     inlineData := Some (base64Data, mimeType);
     promptText :=
       s "Analyze this food product label or image. Tell me what I'm eating. "
       ++ personaClause persona
       ++ s " Provide a JSON output matching the schema." |}.

(** The call the scan loop awaits:
    [analyzeImage(base64Data, 'image/jpeg', apiKey, personaPrompt)]. *)
Definition invoke (JSON_parse : str -> Completion JSON) (env : option str)
  (generateContent : Request -> Completion Response) (inv : Invocation)
  : Completion AnalysisResult :=
  analyzeImage JSON_parse env generateContent
    (inv_base64 inv) (inv_mimeType inv) (Some (inv_apiKey inv))
    (inv_persona inv).

Definition highTraffic : str := s "High traffic. Slowing down...".

(** The state after the cooldown check has cleared the cooldown. *)
Definition cleared (st : State) : State :=
  setError None (setIsCoolingDown false st).

(** The conditions under which the interval callback issues a call. *)
Definition may_issue (apiKey : str) (now : Z) (frame : Frame) (st : State)
  : bool :=
  scanning apiKey st && negb (isAnalyzing st) && usable frame
  && (if isCoolingDown st
      then (lastAnalysisTimeRef st + 3000 <? now)%Z
      else (lastAnalysisTimeRef st + 3000 <=? now)%Z).

(** What holds of the scanner in every state the events can lead to. *)
Definition well_formed (w : World) : Prop :=
  single_flight w
  /\ (isAnalyzing (ui w) = true -> isCoolingDown (ui w) = false)
  /\ (isCoolingDown (ui w) = true -> error (ui w) = Some highTraffic)
  /\ (isCoolingDown (ui w) = false -> error (ui w) = None).

Definition is_camera_start (e : Event) : bool :=
  match e with
  | CameraStarted => true
  | _ => false
  end.


(** The data of the calls that settled successfully during [events]. *)
Definition settled_data (events : list Event) : list AnalysisResult :=
  flat_map (fun e => match e with
                     | Resolve _ (Return data) _ => [data]
                     | _ => []
                     end) events.

(** The lookup behind [personaPrompt], on the two identifiers. *)
Definition promptFor (pid sid : str) : option str :=
  match find (fun x => str_eqb (id x) pid) PERSONAS with
  | Some p =>
      match find (fun x => str_eqb (sub_id x) sid) (subOptions p) with
      | Some so => Some (basePrompt p ++ s " SPECIFIC CONTEXT: " ++ prompt so)
      | None => None
      end
  | None => None
  end.

(** Two spans of the same kind whose texts agree up to case. *)
Definition same_shape (a b : Span) : Prop :=
  is_match a = is_match b /\ ci_eq (span_text a) (span_text b).

Definition same_name (v w : Villain) : Prop := ci_eq (name v) (name w).

End Notions.

(** ** The thinking indicator (components/ThinkingIndicator) *)

Module Thinking.

Definition steps : list str :=
  map s ["Scanning ingredient labels...";
         "Identifying obscure additives...";
         "Consulting nutritional databases...";
         "Inferring health impact...";
         "Synthesizing insights..."]%string.

(** The updater run every 1200 ms: [prev => (prev + 1) % steps.length]. *)
Definition next (prev : nat) : nat := (prev + 1) mod length steps.

(** [currentStep] after [n] runs of the interval, from [useState(0)]. *)
Definition currentStep (n : nat) : nat := Nat.iter n next 0.

(** [steps[currentStep]], [None] standing for [undefined]. *)
Definition shown (n : nat) : option str := nth_error steps (currentStep n).

End Thinking.

(** ** Reading a parsed value, and the chat call (services/geminiService) *)

Module Chat.

Import Invoker Notions.

(** A JavaScript value that came out of [JSON.parse], or [undefined]. *)
Definition Value := option JSON.

(** Truthiness. *)
Definition truthyValue (v : Value) : bool :=
  match v with
  | None => false
  | Some JNull => false
  | Some (JBool b) => b
  | Some (JNum n) => negb (n =? 0)%Z
  | Some (JStr x) => negb (str_eqb x [])
  | Some (JArr _) => true
  | Some (JObj _) => true
  end.

(** The value bound to [k] in an object: of several bindings of one key
    the last one counts. *)
Definition lookup (k : str) (fields : list (str * JSON)) : Value :=
  fold_left (fun found kv => if str_eqb (fst kv) k then Some (snd kv) else found)
            fields None.

(** [a || b] on values. *)
Definition or_value (a b : Value) : Value := if truthyValue a then a else b.

Definition bind {A B} (c : Completion A) (f : A -> Completion B)
  : Completion B :=
  match c with
  | Return a => f a
  | Throw e => Throw e
  end.

(** [interface ChatMessage { role: 'user' | 'model'; text: string }]; the
    optional [isThinking] is never set. *)
Inductive Role := RoleUser | RoleModel.

Record ChatMessage := { role : Role; msg_text : str }.

(** What [ai.chats.create] and [chat.sendMessage] are given. *)
Record ChatRequest := {
  chat_model : str;
  systemInstruction : str;
  chat_history : list (Role * str);
  message : str
}.

Definition newline : str := [ascii_of_nat 10].

Definition fallbackReply : str :=
  s "I'm having trouble understanding that right now.".

Section Calls.

(** The platform: the [TypeError] thrown on reading a property of
    [undefined] or [null] or on calling what is not a function (it is
    given the name of the property), the conversion of a value to a string
    inside a template, and the text a template shows for
    [JSON.stringify(v)]. *)
Variable TypeError : string -> Thrown.
Variable ToString : Value -> str.
Variable stringified : Value -> str.

Variable env_API_KEY : option str.

(** The collaborator: creating the chat and sending the message. *)
Variable sendMessage : ChatRequest -> Completion Response.

(** [v.k], for the property names this program reads (none of them is a
    property of arrays, strings, numbers or of [Object.prototype]). *)
Definition get (v : Value) (k : string) : Completion Value :=
  match v with
  | None | Some JNull => Throw (TypeError k)
  | Some (JObj fields) => Return (lookup (s k) fields)
  | Some _ => Return None
  end.

(** [v.join(', ')]: only an array has [join]; [null] elements give the
    empty string. *)
Definition joined (v : Value) : Completion str :=
  match v with
  | Some (JArr items) =>
      Return (TermMatcher.join (s ", ")
                (map (fun e => match e with
                               | JNull => []
                               | _ => ToString (Some e)
                               end) items))
  | _ => Throw (TypeError "join")
  end.

(** [context.uncertainty?.detected ? context.uncertainty.reason : 'None'] *)
Definition uncertaintyText (context : Value) : Completion str :=
  bind (get context "uncertainty") (fun u =>
  bind (match u with
        | None | Some JNull => Return None
        | _ => get u "detected"
        end) (fun detected =>
  if truthyValue detected
  then bind (get u "reason") (fun reason => Return (ToString reason))
  else Return (s "None"))).

(** [const contextString = context ? `Context: ...` : '']; the parts of the
    template are evaluated from left to right. *)
Definition contextString (context : Value) : Completion str :=
  if negb (truthyValue context) then Return []
  else
    bind (get context "productName") (fun productName =>
    bind (get context "summary") (fun summary =>
    bind (get context "dietaryClassification") (fun dietary =>
    bind (uncertaintyText context) (fun uncertainty =>
    bind (get context "villains") (fun villains =>
    bind (get context "tradeoffs") (fun tradeoffs =>
    bind (get tradeoffs "pros") (fun pros =>
    bind (joined pros) (fun prosText =>
    bind (get context "tradeoffs") (fun tradeoffs' =>
    bind (get tradeoffs' "cons") (fun contras =>
    bind (joined contras) (fun consText =>
    bind (get context "insights") (fun insights =>
    Return
      (s "Context: User is looking at a product named "
       ++ ToString (or_value productName (Some (JStr (s "unknown"))))
       ++ s ". " ++ newline
       ++ s "    Summary: " ++ ToString summary ++ s ". " ++ newline
       ++ s "    Dietary Type: " ++ ToString dietary ++ s "." ++ newline
       ++ s "    Uncertainty Detected: " ++ uncertainty ++ s "." ++ newline
       ++ s "    Villains/Bad Ingredients: " ++ stringified villains
       ++ s "." ++ newline
       ++ s "    Trade-offs: Pros - " ++ prosText ++ s ", Cons - " ++ consText
       ++ s "." ++ newline
       ++ s "    Insights: " ++ stringified insights ++ s "."))))))))))))).

(** [chatWithCoPilot(history, newMessage, context, apiKey)] *)
Definition chatWithCoPilot (history : list ChatMessage) (newMessage : str)
  (context : Value) (apiKey : option str) : Completion str :=
  match finalApiKey env_API_KEY apiKey with
  | [] => Throw (Error "API Key is missing. Please provide one in settings.")
  | _ :: _ =>
      bind (contextString context) (fun contextString =>
      match sendMessage
              {| chat_model := GEMINI_TEXT_MODEL;
                 systemInstruction :=
                   s "You are a helpful, empathetic food scientist co-pilot. Keep answers short, conversational, and direct. "
                   ++ contextString;
                 chat_history := map (fun h => (role h, msg_text h)) history;
                 message := newMessage |} with
      | Return result =>
          Return (match text result with
                  | Some (c :: reply) => c :: reply
                  | _ => fallbackReply
                  end)
      | Throw error => Throw (handleGeminiError error)
      end)
  end.

End Calls.

(** *** Vocabulary of the properties *)


End Chat.

(** ** The application shell (App) *)

Module App.

Import Invoker Notions Chat.

(** [enum AppState] *)
Inductive AppState := IDLE | ANALYZING | RESULTS | ERROR | LIVE_SCAN.

(** A chosen file as [FileReader.readAsDataURL] presents it: its type and
    the base64 payload that follows the comma of its data URL. *)
Record File := { file_type : str; file_base64 : str }.

(** The React state that the handlers below read or write, and the item
    [nourish_api_key] of [localStorage] ([storedKey]).  The preview URL,
    the villain tooltip, the audio flag and the toast are left out. *)
Record App := {
  state : AppState;
  result : option AnalysisResult;
  inputText : str;
  file : option File;
  chatHistory : list ChatMessage;
  isChatOpen : bool;
  chatInput : str;
  isChatLoading : bool;
  errorMessage : str;
  apiKey : str;
  isKeyModalOpen : bool;
  tempKey : str;
  activePersonaId : option str;
  activeSubOptionId : option str;
  personaModalOpen : bool;
  pendingPersonaId : option str;
  storedKey : option str
}.

Definition setState (x : AppState) (a : App) : App :=
  {| state := x;
     result := result a;
     inputText := inputText a;
     file := file a;
     chatHistory := chatHistory a;
     isChatOpen := isChatOpen a;
     chatInput := chatInput a;
     isChatLoading := isChatLoading a;
     errorMessage := errorMessage a;
     apiKey := apiKey a;
     isKeyModalOpen := isKeyModalOpen a;
     tempKey := tempKey a;
     activePersonaId := activePersonaId a;
     activeSubOptionId := activeSubOptionId a;
     personaModalOpen := personaModalOpen a;
     pendingPersonaId := pendingPersonaId a;
     storedKey := storedKey a |}.

Definition setResult (x : option AnalysisResult) (a : App) : App :=
  {| state := state a;
     result := x;
     inputText := inputText a;
     file := file a;
     chatHistory := chatHistory a;
     isChatOpen := isChatOpen a;
     chatInput := chatInput a;
     isChatLoading := isChatLoading a;
     errorMessage := errorMessage a;
     apiKey := apiKey a;
     isKeyModalOpen := isKeyModalOpen a;
     tempKey := tempKey a;
     activePersonaId := activePersonaId a;
     activeSubOptionId := activeSubOptionId a;
     personaModalOpen := personaModalOpen a;
     pendingPersonaId := pendingPersonaId a;
     storedKey := storedKey a |}.


Definition setFile (x : option File) (a : App) : App :=
  {| state := state a;
     result := result a;
     inputText := inputText a;
     file := x;
     chatHistory := chatHistory a;
     isChatOpen := isChatOpen a;
     chatInput := chatInput a;
     isChatLoading := isChatLoading a;
     errorMessage := errorMessage a;
     apiKey := apiKey a;
     isKeyModalOpen := isKeyModalOpen a;
     tempKey := tempKey a;
     activePersonaId := activePersonaId a;
     activeSubOptionId := activeSubOptionId a;
     personaModalOpen := personaModalOpen a;
     pendingPersonaId := pendingPersonaId a;
     storedKey := storedKey a |}.

Definition setChatHistory (x : list ChatMessage) (a : App) : App :=
  {| state := state a;
     result := result a;
     inputText := inputText a;
     file := file a;
     chatHistory := x;
     isChatOpen := isChatOpen a;
     chatInput := chatInput a;
     isChatLoading := isChatLoading a;
     errorMessage := errorMessage a;
     apiKey := apiKey a;
     isKeyModalOpen := isKeyModalOpen a;
     tempKey := tempKey a;
     activePersonaId := activePersonaId a;
     activeSubOptionId := activeSubOptionId a;
     personaModalOpen := personaModalOpen a;
     pendingPersonaId := pendingPersonaId a;
     storedKey := storedKey a |}.

Definition setIsChatOpen (x : bool) (a : App) : App :=
  {| state := state a;
     result := result a;
     inputText := inputText a;
     file := file a;
     chatHistory := chatHistory a;
     isChatOpen := x;
     chatInput := chatInput a;
     isChatLoading := isChatLoading a;
     errorMessage := errorMessage a;
     apiKey := apiKey a;
     isKeyModalOpen := isKeyModalOpen a;
     tempKey := tempKey a;
     activePersonaId := activePersonaId a;
     activeSubOptionId := activeSubOptionId a;
     personaModalOpen := personaModalOpen a;
     pendingPersonaId := pendingPersonaId a;
     storedKey := storedKey a |}.

Definition setChatInput (x : str) (a : App) : App :=
  {| state := state a;
     result := result a;
     inputText := inputText a;
     file := file a;
     chatHistory := chatHistory a;
     isChatOpen := isChatOpen a;
     chatInput := x;
     isChatLoading := isChatLoading a;
     errorMessage := errorMessage a;
     apiKey := apiKey a;
     isKeyModalOpen := isKeyModalOpen a;
     tempKey := tempKey a;
     activePersonaId := activePersonaId a;
     activeSubOptionId := activeSubOptionId a;
     personaModalOpen := personaModalOpen a;
     pendingPersonaId := pendingPersonaId a;
     storedKey := storedKey a |}.

Definition setIsChatLoading (x : bool) (a : App) : App :=
  {| state := state a;
     result := result a;
     inputText := inputText a;
     file := file a;
     chatHistory := chatHistory a;
     isChatOpen := isChatOpen a;
     chatInput := chatInput a;
     isChatLoading := x;
     errorMessage := errorMessage a;
     apiKey := apiKey a;
     isKeyModalOpen := isKeyModalOpen a;
     tempKey := tempKey a;
     activePersonaId := activePersonaId a;
     activeSubOptionId := activeSubOptionId a;
     personaModalOpen := personaModalOpen a;
     pendingPersonaId := pendingPersonaId a;
     storedKey := storedKey a |}.

Definition setErrorMessage (x : str) (a : App) : App :=
  {| state := state a;
     result := result a;
     inputText := inputText a;
     file := file a;
     chatHistory := chatHistory a;
     isChatOpen := isChatOpen a;
     chatInput := chatInput a;
     isChatLoading := isChatLoading a;
     errorMessage := x;
     apiKey := apiKey a;
     isKeyModalOpen := isKeyModalOpen a;
     tempKey := tempKey a;
     activePersonaId := activePersonaId a;
     activeSubOptionId := activeSubOptionId a;
     personaModalOpen := personaModalOpen a;
     pendingPersonaId := pendingPersonaId a;
     storedKey := storedKey a |}.

Definition setApiKey (x : str) (a : App) : App :=
  {| state := state a;
     result := result a;
     inputText := inputText a;
     file := file a;
     chatHistory := chatHistory a;
     isChatOpen := isChatOpen a;
     chatInput := chatInput a;
     isChatLoading := isChatLoading a;
     errorMessage := errorMessage a;
     apiKey := x;
     isKeyModalOpen := isKeyModalOpen a;
     tempKey := tempKey a;
     activePersonaId := activePersonaId a;
     activeSubOptionId := activeSubOptionId a;
     personaModalOpen := personaModalOpen a;
     pendingPersonaId := pendingPersonaId a;
     storedKey := storedKey a |}.

Definition setIsKeyModalOpen (x : bool) (a : App) : App :=
  {| state := state a;
     result := result a;
     inputText := inputText a;
     file := file a;
     chatHistory := chatHistory a;
     isChatOpen := isChatOpen a;
     chatInput := chatInput a;
     isChatLoading := isChatLoading a;
     errorMessage := errorMessage a;
     apiKey := apiKey a;
     isKeyModalOpen := x;
     tempKey := tempKey a;
     activePersonaId := activePersonaId a;
     activeSubOptionId := activeSubOptionId a;
     personaModalOpen := personaModalOpen a;
     pendingPersonaId := pendingPersonaId a;
     storedKey := storedKey a |}.

Definition setTempKey (x : str) (a : App) : App :=
  {| state := state a;
     result := result a;
     inputText := inputText a;
     file := file a;
     chatHistory := chatHistory a;
     isChatOpen := isChatOpen a;
     chatInput := chatInput a;
     isChatLoading := isChatLoading a;
     errorMessage := errorMessage a;
     apiKey := apiKey a;
     isKeyModalOpen := isKeyModalOpen a;
     tempKey := x;
     activePersonaId := activePersonaId a;
     activeSubOptionId := activeSubOptionId a;
     personaModalOpen := personaModalOpen a;
     pendingPersonaId := pendingPersonaId a;
     storedKey := storedKey a |}.

Definition setActivePersonaId (x : option str) (a : App) : App :=
  {| state := state a;
     result := result a;
     inputText := inputText a;
     file := file a;
     chatHistory := chatHistory a;
     isChatOpen := isChatOpen a;
     chatInput := chatInput a;
     isChatLoading := isChatLoading a;
     errorMessage := errorMessage a;
     apiKey := apiKey a;
     isKeyModalOpen := isKeyModalOpen a;
     tempKey := tempKey a;
     activePersonaId := x;
     activeSubOptionId := activeSubOptionId a;
     personaModalOpen := personaModalOpen a;
     pendingPersonaId := pendingPersonaId a;
     storedKey := storedKey a |}.

Definition setActiveSubOptionId (x : option str) (a : App) : App :=
  {| state := state a;
     result := result a;
     inputText := inputText a;
     file := file a;
     chatHistory := chatHistory a;
     isChatOpen := isChatOpen a;
     chatInput := chatInput a;
     isChatLoading := isChatLoading a;
     errorMessage := errorMessage a;
     apiKey := apiKey a;
     isKeyModalOpen := isKeyModalOpen a;
     tempKey := tempKey a;
     activePersonaId := activePersonaId a;
     activeSubOptionId := x;
     personaModalOpen := personaModalOpen a;
     pendingPersonaId := pendingPersonaId a;
     storedKey := storedKey a |}.

Definition setPersonaModalOpen (x : bool) (a : App) : App :=
  {| state := state a;
     result := result a;
     inputText := inputText a;
     file := file a;
     chatHistory := chatHistory a;
     isChatOpen := isChatOpen a;
     chatInput := chatInput a;
     isChatLoading := isChatLoading a;
     errorMessage := errorMessage a;
     apiKey := apiKey a;
     isKeyModalOpen := isKeyModalOpen a;
     tempKey := tempKey a;
     activePersonaId := activePersonaId a;
     activeSubOptionId := activeSubOptionId a;
     personaModalOpen := x;
     pendingPersonaId := pendingPersonaId a;
     storedKey := storedKey a |}.

Definition setPendingPersonaId (x : option str) (a : App) : App :=
  {| state := state a;
     result := result a;
     inputText := inputText a;
     file := file a;
     chatHistory := chatHistory a;
     isChatOpen := isChatOpen a;
     chatInput := chatInput a;
     isChatLoading := isChatLoading a;
     errorMessage := errorMessage a;
     apiKey := apiKey a;
     isKeyModalOpen := isKeyModalOpen a;
     tempKey := tempKey a;
     activePersonaId := activePersonaId a;
     activeSubOptionId := activeSubOptionId a;
     personaModalOpen := personaModalOpen a;
     pendingPersonaId := x;
     storedKey := storedKey a |}.

Definition setStoredKey (x : option str) (a : App) : App :=
  {| state := state a;
     result := result a;
     inputText := inputText a;
     file := file a;
     chatHistory := chatHistory a;
     isChatOpen := isChatOpen a;
     chatInput := chatInput a;
     isChatLoading := isChatLoading a;
     errorMessage := errorMessage a;
     apiKey := apiKey a;
     isKeyModalOpen := isKeyModalOpen a;
     tempKey := tempKey a;
     activePersonaId := activePersonaId a;
     activeSubOptionId := activeSubOptionId a;
     personaModalOpen := personaModalOpen a;
     pendingPersonaId := pendingPersonaId a;
     storedKey := x |}.

(** [useState] initial values; [apiKey] starts from
    [localStorage.getItem('nourish_api_key') || '']. *)
Definition initialApp (stored : option str) : App :=
  {| state := IDLE; result := None; inputText := []; file := None;
     chatHistory := []; isChatOpen := false; chatInput := [];
     isChatLoading := false; errorMessage := [];
     apiKey := match stored with
               | Some k => k
               | None => []
               end;
     isKeyModalOpen := false; tempKey := [];
     activePersonaId := None; activeSubOptionId := None;
     personaModalOpen := false; pendingPersonaId := None;
     storedKey := stored |}.

(** What a handler asks of the browser besides the state: an [alert], or
    [setTimeout(() => setIsKeyModalOpen(true), ms)]. *)
Inductive Effect :=
| Alert (msg : str)
| KeyModalAfter (ms : Z).

Definition openKeyModal (a : App) : App :=
  setIsKeyModalOpen true (setTempKey (apiKey a) a).

Definition saveApiKey (a : App) : App :=
  setIsKeyModalOpen false
    (setStoredKey (Some (trim (tempKey a)))
       (setApiKey (trim (tempKey a)) a)).

Definition genericMessage : str :=
  s "We couldn't analyze that. Please try again.".

Definition quotaMessage : str :=
  s "You've exceeded your API Usage Quota. Please try again in a moment or check your billing details.".

Definition permissionMessage : str :=
  s "Permission Denied. Please check your API Key. Ensure it is correct and has access to Gemini models.".

Definition missingKeyMessage : str := s "API Key is missing.".

Definition keyFirst : str := s "Please enter a Google Gemini API Key first.".

Definition apology : str :=
  s "Sorry, I encountered an error. Please check your API key.".

(** [error?.message?.includes(needle)] *)
Definition messageIncludes (e : Thrown) (needle : string) : bool :=
  match message_of e with
  | Some m => includes m (s needle)
  | None => false
  end.

Section Handlers.

(** The platform and the collaborators, as for the services. *)
Variable JSON_parse : str -> Completion JSON.
Variable env_API_KEY : option str.
Variable generateContent : Request -> Completion Response.
Variable sendMessage : ChatRequest -> Completion Response.
Variable TypeError : string -> Thrown.
Variable ToString : Value -> str.
Variable stringified : Value -> str.

(** [error.toString()] *)
Variable toStringOf : Thrown -> str.

Definition handleError (error : Thrown) (a : App) : App * list Effect :=
  let (msg, effects) :=
    if Scanner.isQuota error then (quotaMessage, [])
    else if messageIncludes error "403"
            || includes (toStringOf error) (s "PERMISSION_DENIED")
            || messageIncludes error "The caller does not have permission"
    then (permissionMessage, [KeyModalAfter 1500])
    else if messageIncludes error "API Key is missing"
    then (missingKeyMessage, [KeyModalAfter 500])
    else (genericMessage, []) in
  (setState ERROR (setErrorMessage msg a), effects).

(** [!apiKey && !process.env.API_KEY] *)
Definition noKey (a : App) : bool :=
  str_eqb (apiKey a) [] && negb (Scanner.truthy env_API_KEY).

Definition handleStartLive (a : App) : App * list Effect :=
  if noKey a then (openKeyModal a, [Alert keyFirst])
  else (setState LIVE_SCAN a, []).

(** The [apiKey] prop handed to [LiveScanner]:
    [apiKey || process.env.API_KEY || '']. *)
Definition liveScannerKey (a : App) : str :=
  chosenKey (Some (apiKey a)) env_API_KEY.

(** The persona prompt of [handleAnalyze], looked up as in the scanner. *)
Definition personaPrompt (a : App) : option str :=
  if Scanner.truthy (activePersonaId a) && Scanner.truthy (activeSubOptionId a)
  then match activePersonaId a, activeSubOptionId a with
       | Some pid, Some sid => promptFor pid sid
       | _, _ => None
       end
  else None.



(** [result || undefined] *)
Definition chatContext (a : App) : Value :=
  match result a with
  | Some data => if truthyValue (Some data) then Some data else None
  | None => None
  end.

(** [handleSendMessage], run to the end with no other event in between. *)
Definition handleSendMessage (a : App) : App :=
  match trim (chatInput a) with
  | [] => a
  | _ :: _ =>
      let newMsg := {| role := RoleUser; msg_text := chatInput a |} in
      let a1 :=
        setIsChatLoading true
          (setChatInput [] (setChatHistory (chatHistory a ++ [newMsg]) a)) in
      let a2 :=
        match chatWithCoPilot TypeError ToString stringified env_API_KEY
                sendMessage (chatHistory a ++ [newMsg]) (chatInput a)
                (chatContext a) (Some (apiKey a)) with
        | Return reply =>
            setChatHistory
              (chatHistory a1 ++ [{| role := RoleModel; msg_text := reply |}])
              a1
        | Throw _ =>
            setChatHistory
              (chatHistory a1 ++ [{| role := RoleModel; msg_text := apology |}])
              a1
        end in
      setIsChatLoading false a2
  end.

End Handlers.

(** *** Vocabulary of the properties *)




Definition userMessage (x : str) : ChatMessage :=
  {| role := RoleUser; msg_text := x |}.

Definition modelMessage (x : str) : ChatMessage :=
  {| role := RoleModel; msg_text := x |}.


End App.

(** ** The result card of the scanner *)

Module Card.

Import Invoker Scanner Chat.


End Card.

(** * Properties *)

(** ** The scan loop *)

Module ScanLoop.

Import Invoker Scanner.

Lemma setIsAnalyzing_same (st : State) (b : bool) :
  isAnalyzing st = b -> setIsAnalyzing b st = st.
Proof. intros <-. destruct st; reflexivity. Qed.

Lemma usable_true frame :
  usable frame = true ->
  refsPresent frame = true /\ enoughData frame = true /\ ctxPresent frame = true.
Proof.
  unfold usable. rewrite !andb_true_iff. tauto.
Qed.

(** While the cooling-down flag is up, a tick returns at once unless the
    clock has passed the last-run time by more than 3000 ms. *)
Lemma tick_cooling_skips apiKey now frame st :
  isCoolingDown st = true ->
  (now <= lastAnalysisTimeRef st + 3000)%Z ->
  tick apiKey now frame st = (st, None).
Proof.
  intros Hc Hnow. unfold tick.
  destruct (scanning apiKey st); [simpl | reflexivity].
  unfold cooldown_check. rewrite Hc.
  destruct (Z.gtb_spec now (lastAnalysisTimeRef st + 3000)); [lia | reflexivity].
Qed.

(** Without cooldown, a tick less than 3000 ms after the last-run time
    returns at once. *)
Lemma tick_spacing_skips apiKey now frame st :
  isCoolingDown st = false ->
  (now - lastAnalysisTimeRef st < 3000)%Z ->
  tick apiKey now frame st = (st, None).
Proof.
  intros Hc Hnow. unfold tick.
  destruct (scanning apiKey st); [simpl | reflexivity].
  unfold cooldown_check. rewrite Hc. simpl.
  apply Z.ltb_lt in Hnow. rewrite Hnow, orb_true_r. reflexivity.
Qed.

(** A tick never issues a call less than 3000 ms after the last-run time. *)
Lemma tick_obeys_spacing apiKey now frame st :
  (now - lastAnalysisTimeRef st < 3000)%Z ->
  snd (tick apiKey now frame st) = None.
Proof.
  intros Hnow. destruct (isCoolingDown st) eqn:Hc.
  - rewrite tick_cooling_skips by (assumption || lia). reflexivity.
  - rewrite tick_spacing_skips by assumption. reflexivity.
Qed.

(** A tick issues a call when nothing holds it back. *)
Lemma tick_starts apiKey now frame st :
  scanning apiKey st = true ->
  isCoolingDown st = false ->
  isAnalyzing st = false ->
  (3000 <= now - lastAnalysisTimeRef st)%Z ->
  usable frame = true ->
  tick apiKey now frame st = (setIsAnalyzing true st, Some (issued apiKey frame st)).
Proof.
  intros Hs Hc Ha Hnow Hf. apply usable_true in Hf as (Hr & He & Hx).
  unfold tick, cooldown_check. rewrite Hs, Hc, Ha, Hr, He, Hx. simpl.
  destruct (Z.ltb_spec (now - lastAnalysisTimeRef st) 3000); [lia | reflexivity].
Qed.


(** A tick that issues a call found [isAnalyzing] down and leaves it up. *)
Lemma tick_issue_inv apiKey now frame st st' inv :
  tick apiKey now frame st = (st', Some inv) ->
  isAnalyzing st = false /\ isAnalyzing st' = true /\ isCoolingDown st' = false
  /\ result st' = result st /\ lastAnalysisTimeRef st' = lastAnalysisTimeRef st
  /\ (isCoolingDown st = false -> st' = setIsAnalyzing true st).
Proof.
  unfold tick, cooldown_check.
  destruct (scanning apiKey st); simpl; [| discriminate].
  destruct (isCoolingDown st) eqn:Hc.
  - destruct (now >? lastAnalysisTimeRef st + 3000)%Z; simpl; [| discriminate].
    destruct (isAnalyzing st); simpl; [discriminate |].
    destruct (now - lastAnalysisTimeRef st <? 3000)%Z; [discriminate |].
    destruct (refsPresent frame); simpl; [| discriminate].
    destruct (enoughData frame); simpl; [| discriminate].
    destruct (ctxPresent frame); simpl; [| discriminate].
    intros [= <- _]. simpl. repeat split; try reflexivity. discriminate.
  - simpl. destruct (isAnalyzing st); simpl; [discriminate |].
    destruct (now - lastAnalysisTimeRef st <? 3000)%Z; [discriminate |].
    destruct (refsPresent frame); simpl; [| discriminate].
    destruct (enoughData frame); simpl; [| discriminate].
    destruct (ctxPresent frame); simpl; [| discriminate].
    intros [= <- _]. simpl. repeat split; auto.
Qed.

(** A tick that issues no call leaves [isAnalyzing] as it found it. *)
Lemma tick_idle_inv apiKey now frame st st' :
  tick apiKey now frame st = (st', None) ->
  isAnalyzing st' = isAnalyzing st.
Proof.
  unfold tick, cooldown_check.
  destruct (scanning apiKey st); simpl; [| intros [= <-]; reflexivity].
  destruct (isCoolingDown st).
  - destruct (now >? lastAnalysisTimeRef st + 3000)%Z; simpl;
      [| intros [= <-]; reflexivity].
    destruct (isAnalyzing st) eqn:Ha; simpl; [intros [= <-]; exact Ha |].
    destruct (now - lastAnalysisTimeRef st <? 3000)%Z; [intros [= <-]; exact Ha |].
    destruct (refsPresent frame); simpl; [| intros [= <-]; exact Ha].
    destruct (enoughData frame); simpl; [| intros [= <-]; exact Ha].
    destruct (ctxPresent frame); simpl; [discriminate |].
    intros [= <-]. reflexivity.
  - simpl. destruct (isAnalyzing st) eqn:Ha; simpl; [intros [= <-]; exact Ha |].
    destruct (now - lastAnalysisTimeRef st <? 3000)%Z; [intros [= <-]; exact Ha |].
    destruct (refsPresent frame); simpl; [| intros [= <-]; exact Ha].
    destruct (enoughData frame); simpl; [| intros [= <-]; exact Ha].
    destruct (ctxPresent frame); simpl; [discriminate |].
    intros [= <-]. reflexivity.
Qed.

Lemma step_single_flight apiKey e w :
  single_flight w -> single_flight (step apiKey e w).
Proof.
  unfold single_flight. intros Hw. destruct e; simpl; try exact Hw.
  - destruct (tick apiKey now frame (ui w)) as [st [inv |]] eqn:Ht; simpl.
    + apply tick_issue_inv in Ht as (Ha & Ha' & _).
      rewrite Ha in Hw. rewrite Ha', length_app, Hw. reflexivity.
    + apply tick_idle_inv in Ht. rewrite Ht. exact Hw.
  - destruct (nth_error (inflight w) k) as [inv |] eqn:Hk; [simpl | exact Hw].
    destruct (inflight w) as [| i0 [| i1 l]]; destruct k as [| k];
      simpl in *; try discriminate.
    + destruct outcome as [d | err]; [reflexivity |].
      destruct (isQuota err); reflexivity.
    + destruct k; discriminate.
    + destruct (isAnalyzing (ui w)); discriminate.
    + destruct (isAnalyzing (ui w)); discriminate.
  - unfold handlePersonaClick.
    destruct (opt_eqb (activePersonaId (ui w)) personaId); exact Hw.
  - unfold confirmSubOption.
    destruct (truthy (pendingPersonaId (ui w))); exact Hw.
  - unfold handlePlayAudio. destruct text0; exact Hw.
Qed.

Lemma run_single_flight apiKey events w :
  single_flight w -> single_flight (run apiKey events w).
Proof.
  unfold run. revert w.
  induction events as [| e events IH]; intros w Hw; simpl; [exact Hw |].
  apply IH, step_single_flight, Hw.
Qed.

(** *** C4: spacing *)

(** C4.  With no cooldown, a tick 1000 ms after the last analysis time [t0]
    issues no call and changes nothing, and a tick exactly 3000 ms after
    [t0] issues one when the scanner is scanning, idle, and the camera
    frame is usable. *)
Theorem spacing_3000 apiKey frame st t0 :
  isCoolingDown st = false ->
  lastAnalysisTimeRef st = t0 ->
  tick apiKey (t0 + 1000) frame st = (st, None)
  /\ (scanning apiKey st = true -> isAnalyzing st = false ->
      usable frame = true ->
      tick apiKey (t0 + 3000) frame st
      = (setIsAnalyzing true st, Some (issued apiKey frame st))).
Proof.
  intros Hc Ht. split.
  - apply tick_spacing_skips; [assumption | lia].
  - intros Hs Ha Hf. apply tick_starts; try assumption. lia.
Qed.

Lemma spacing_3000_witness :
  tick key (7000 + 1000) ready (setLastAnalysisTimeRef 7000 streaming)
  = (setLastAnalysisTimeRef 7000 streaming, None)
  /\ tick key (7000 + 3000) ready (setLastAnalysisTimeRef 7000 streaming)
     = (setIsAnalyzing true (setLastAnalysisTimeRef 7000 streaming),
        Some (issued key ready (setLastAnalysisTimeRef 7000 streaming))).
Proof.
  destruct (@spacing_3000 key ready (setLastAnalysisTimeRef 7000 streaming) 7000
              eq_refl eq_refl) as [Hskip Hrun].
  split; [exact Hskip | exact (Hrun eq_refl eq_refl eq_refl)].
Defined.

(** *** C1: cooldown *)




(** *** C7: persona change and spacing *)

(** C7, as stated, fails.  The last analysis ran at 10000; the user picks
    the persona [diabetic] / [type1] at once.  The next tick, at 11000,
    issues no call although there is no cooldown and nothing is in flight:
    the change of persona does not lift the 3000 ms spacing. *)
Lemma persona_force_counterexample :
  let before :=
    setPendingPersonaId (Some (s "diabetic"))
      (setResult (Some (JObj [])) (setLastAnalysisTimeRef 10000 streaming)) in
  let st := confirmSubOption (s "type1") before in
  activePersonaId before = None
  /\ activePersonaId st = Some (s "diabetic")
  /\ activeSubOptionId st = Some (s "type1")
  /\ scanning key st = true
  /\ isCoolingDown st = false
  /\ isAnalyzing st = false
  /\ usable ready = true
  /\ tick key 11000 ready st = (st, None).
Proof. vm_compute. repeat split; reflexivity. Qed.

(** C7 (amended).  A change of persona context clears the published
    result, for [confirmSubOption] and for the deselection in
    [handlePersonaClick] alike (a click on another persona only opens the
    overlay and changes neither context nor result), and leaves the
    last-run time, the cooling-down flag and [isAnalyzing] untouched; there
    is no force flag.  The next tick therefore obeys the 3000 ms spacing,
    and an active cooldown, exactly as before the change. *)
Theorem persona_change_keeps_limits apiKey subId personaId st :
  let changes := [confirmSubOption subId; handlePersonaClick personaId] in
  (truthy (pendingPersonaId st) = true ->
     let st' := confirmSubOption subId st in
     result st' = None /\ activePersonaId st' = pendingPersonaId st
     /\ activeSubOptionId st' = Some subId)
  /\ (opt_eqb (activePersonaId st) personaId = true ->
        let st' := handlePersonaClick personaId st in
        result st' = None /\ activePersonaId st' = None
        /\ activeSubOptionId st' = None)
  /\ (opt_eqb (activePersonaId st) personaId = false ->
        let st' := handlePersonaClick personaId st in
        st' = setPendingPersonaId (Some personaId) st
        /\ result st' = result st
        /\ activePersonaId st' = activePersonaId st
        /\ activeSubOptionId st' = activeSubOptionId st)
  /\ forall change, In change changes ->
       let st' := change st in
       lastAnalysisTimeRef st' = lastAnalysisTimeRef st
       /\ isCoolingDown st' = isCoolingDown st
       /\ isAnalyzing st' = isAnalyzing st
       /\ (forall now frame, (now - lastAnalysisTimeRef st < 3000)%Z ->
             snd (tick apiKey now frame st') = None)
       /\ (forall now frame, isCoolingDown st = true ->
             (now <= lastAnalysisTimeRef st + 3000)%Z ->
             snd (tick apiKey now frame st') = None).
Proof.
  intros changes. split; [| split; [| split]].
  - intros Hp st'. unfold st', confirmSubOption. rewrite Hp. repeat split.
  - intros Hp st'. unfold st', handlePersonaClick. rewrite Hp. repeat split.
  - intros Hp st'. unfold st', handlePersonaClick. rewrite Hp. repeat split.
  - intros change Hin st'.
    assert (H : lastAnalysisTimeRef st' = lastAnalysisTimeRef st
                /\ isCoolingDown st' = isCoolingDown st
                /\ isAnalyzing st' = isAnalyzing st).
    { destruct Hin as [<- | [<- | []]]; unfold st'.
      - unfold confirmSubOption.
        destruct (truthy (pendingPersonaId st)); repeat split.
      - unfold handlePersonaClick.
        destruct (opt_eqb (activePersonaId st) personaId); repeat split. }
    destruct H as (Hl & Hc & Ha). repeat split; try assumption.
    + intros now frame Hnow. apply tick_obeys_spacing. rewrite Hl. exact Hnow.
    + intros now frame Hcool Hnow.
      rewrite tick_cooling_skips; [reflexivity | congruence | rewrite Hl; exact Hnow].
Qed.

Lemma persona_change_keeps_limits_witness :
  let before :=
    setPendingPersonaId (Some (s "diabetic"))
      (setResult (Some (JObj []))
         (setActiveSubOptionId (Some (s "soy"))
            (setActivePersonaId (Some (s "allergies"))
               (setLastAnalysisTimeRef 10000 streaming)))) in
  result (confirmSubOption (s "type1") before) = None
  /\ result (handlePersonaClick (s "allergies") before) = None
  /\ snd (tick key 12999 ready (confirmSubOption (s "type1") before)) = None
  /\ snd (tick key 12999 ready (handlePersonaClick (s "allergies") before))
     = None.
Proof.
  destruct (@persona_change_keeps_limits key (s "type1") (s "allergies")
              (setPendingPersonaId (Some (s "diabetic"))
                 (setResult (Some (JObj []))
                    (setActiveSubOptionId (Some (s "soy"))
                       (setActivePersonaId (Some (s "allergies"))
                          (setLastAnalysisTimeRef 10000 streaming))))))
    as (Hset & Hoff & _ & Hall).
  split; [apply (Hset eq_refl) |]. split; [apply (Hoff eq_refl) |]. split.
  - destruct (Hall _ (or_introl eq_refl)) as (_ & _ & _ & Hspace & _).
    apply Hspace. vm_compute. reflexivity.
  - destruct (Hall _ (or_intror (or_introl eq_refl))) as (_ & _ & _ & Hspace & _).
    apply Hspace. vm_compute. reflexivity.
Defined.

(** *** C3: results of calls issued under an earlier persona *)






(** *** C6: one call in flight *)

(** C6.  Whatever events occur and in whatever order and rhythm (ticks,
    settling calls, persona and overlay clicks, audio), at most one call is
    in flight, and a tick that finds a call in flight issues none. *)
Theorem at_most_one_in_flight apiKey events :
  let w := run apiKey events start in
  length (inflight w) <= 1
  /\ forall now frame,
       inflight w <> [] -> snd (tick apiKey now frame (ui w)) = None.
Proof.
  intros w.
  assert (Hw : single_flight w) by (apply run_single_flight; reflexivity).
  unfold single_flight in Hw. split.
  - destruct (isAnalyzing (ui w)); lia.
  - intros now frame Hne.
    destruct (tick apiKey now frame (ui w)) as [st [inv |]] eqn:Ht;
      [| reflexivity].
    apply tick_issue_inv in Ht as (Ha & _). rewrite Ha in Hw.
    destruct (inflight w); [contradiction | discriminate].
Qed.

Lemma at_most_one_in_flight_witness :
  let w := run key [CameraStarted; Tick 5000 ready; Tick 6000 ready;
                    Tick 9000 ready] start in
  length (inflight w) = 1 /\ snd (tick key 12000 ready (ui w)) = None.
Proof.
  intros w. split; [reflexivity |].
  apply (proj2 (@at_most_one_in_flight key
                  [CameraStarted; Tick 5000 ready; Tick 6000 ready;
                   Tick 9000 ready])).
  vm_compute. discriminate.
Defined.

(** *** C10: failures other than quota *)

(** A tick that issues a call while the cooling-down flag is up has found
    the pause expired and has cleared the flag and the error. *)
Lemma tick_issue_cooling apiKey now frame st st' inv :
  tick apiKey now frame st = (st', Some inv) ->
  isCoolingDown st = true ->
  (lastAnalysisTimeRef st + 3000 < now)%Z
  /\ st' = setIsAnalyzing true (setError None (setIsCoolingDown false st)).
Proof.
  unfold tick, cooldown_check. intros Ht Hc. rewrite Hc in Ht.
  destruct (scanning apiKey st); simpl in Ht; [| discriminate].
  destruct (Z.gtb_spec now (lastAnalysisTimeRef st + 3000)) as [Hgt | Hle];
    simpl in Ht; [| discriminate].
  destruct (isAnalyzing st); simpl in Ht; [discriminate |].
  destruct (now - lastAnalysisTimeRef st <? 3000)%Z; [discriminate |].
  destruct (refsPresent frame); simpl in Ht; [| discriminate].
  destruct (enoughData frame); simpl in Ht; [| discriminate].
  destruct (ctxPresent frame); simpl in Ht; [| discriminate].
  injection Ht as <- _. split; [lia | reflexivity].
Qed.

(** C10, as stated, fails on two counts.  A quota failure settles at 5500
    and starts the pause.  The tick at 18501 finds the pause expired,
    clears the flag and the error and issues a call, which fails with a
    network error: after that tick the cooldown state is not what it was
    before it.  And the quota failure itself moved the last-run time, from
    0 to 15500, although nothing had succeeded. *)
Lemma non_quota_failure_counterexample :
  let issuedAt := run key [CameraStarted; Tick 5000 ready] start in
  let paused := step key (Resolve 0 (Throw quotaError) 5500) issuedAt in
  let retried := step key (Tick 18501 ready) paused in
  let failed := step key (Resolve 0 (Throw networkError) 19000) retried in
  isQuota networkError = false
  /\ length (inflight retried) = 1
  /\ isCoolingDown (ui paused) = true
  /\ error (ui paused) = Some (s "High traffic. Slowing down...")
  /\ isCoolingDown (ui failed) = false
  /\ error (ui failed) = None
  /\ result (ui issuedAt) = None
  /\ result (ui paused) = None
  /\ lastAnalysisTimeRef (ui issuedAt) = 0%Z
  /\ lastAnalysisTimeRef (ui paused) = 15500%Z.
Proof. vm_compute. repeat split; reflexivity. Qed.

(** C10 (amended).  When a call settles with a failure other than
    [QUOTA_EXCEEDED], the handler changes nothing but [isAnalyzing]: the
    published result, the last-run time, the cooling-down flag and the
    error are as before.  For the whole tick that issued the call: result
    and last-run time are those from before the tick and the scanner is not
    in cooldown afterwards; a tick that began outside cooldown is undone
    entirely, whereas a tick that began in a cooldown began more than
    3000 ms after the stored last-run time and has cleared the flag and
    the error, which the failure leaves cleared.  A settling call changes
    the published result only on success, raises the cooling-down flag
    only on a quota failure, and moves the last-run time on success (to
    the time of settling) and on a quota failure (to 10000 ms after the
    time of settling, together with the flag), and in no other case. *)
Theorem non_quota_failure_is_contained apiKey st outcome now :
  let st' := resolve outcome now st in
  (forall err, outcome = Throw err -> isQuota err = false ->
     st' = setIsAnalyzing false st
     /\ result st' = result st
     /\ lastAnalysisTimeRef st' = lastAnalysisTimeRef st
     /\ isCoolingDown st' = isCoolingDown st
     /\ error st' = error st)
  /\ (forall err before t frame inv,
        outcome = Throw err -> isQuota err = false ->
        tick apiKey t frame before = (st, Some inv) ->
        result st' = result before
        /\ lastAnalysisTimeRef st' = lastAnalysisTimeRef before
        /\ isCoolingDown st' = false
        /\ (isCoolingDown before = false -> st' = before)
        /\ (isCoolingDown before = true ->
            (lastAnalysisTimeRef before + 3000 < t)%Z
            /\ st' = setError None (setIsCoolingDown false before)
            /\ error st' = None))
  /\ (result st' <> result st -> exists data, outcome = Return data)
  /\ (isCoolingDown st = false -> isCoolingDown st' = true ->
      exists err, outcome = Throw err /\ isQuota err = true)
  /\ (forall data, outcome = Return data -> lastAnalysisTimeRef st' = now)
  /\ (forall err, outcome = Throw err -> isQuota err = true ->
        lastAnalysisTimeRef st' = (now + 10000)%Z
        /\ isCoolingDown st' = true)
  /\ (lastAnalysisTimeRef st' <> lastAnalysisTimeRef st ->
      (exists data, outcome = Return data /\ lastAnalysisTimeRef st' = now)
      \/ (exists err, outcome = Throw err /\ isQuota err = true
                      /\ isCoolingDown st' = true
                      /\ lastAnalysisTimeRef st' = (now + 10000)%Z)).
Proof.
  intros st'. unfold st', resolve.
  split; [| split; [| split; [| split; [| split; [| split]]]]].
  - intros err -> Hq. rewrite Hq. repeat split.
  - intros err before t frame inv -> Hq Ht. rewrite Hq.
    pose proof (tick_issue_inv _ _ _ _ _ _ Ht) as (Ha & _ & Hc & Hr & Hl & Hsame).
    simpl.
    split; [exact Hr |]. split; [exact Hl |]. split; [exact Hc |]. split.
    + intros Hb. rewrite (Hsame Hb).
      rewrite <- (setIsAnalyzing_same before false Ha) at 2. reflexivity.
    + intros Hb.
      destruct (tick_issue_cooling _ _ _ _ _ _ Ht Hb) as (Hlate & ->).
      split; [exact Hlate |]. split; [| reflexivity].
      rewrite <- (setIsAnalyzing_same before false Ha) at 2. reflexivity.
  - destruct outcome as [data | err]; [eauto |].
    destruct (isQuota err); simpl; intros H; now elim H.
  - destruct outcome as [data | err]; simpl; [congruence |].
    destruct (isQuota err) eqn:Hq; simpl; [eauto | congruence].
  - intros data ->. reflexivity.
  - intros err -> Hq. rewrite Hq. split; reflexivity.
  - destruct outcome as [data | err]; simpl; [left; eauto |].
    destruct (isQuota err) eqn:Hq; simpl; [right; eauto | intros H; now elim H].
Qed.

Lemma non_quota_failure_is_contained_witness :
  let before := setResult (Some (JObj [])) (setLastAnalysisTimeRef 2000 streaming) in
  let st := fst (tick key 5000 ready before) in
  let cooling :=
    setError (Some (s "High traffic. Slowing down..."))
      (setIsCoolingDown true (setLastAnalysisTimeRef 15500 streaming)) in
  let st2 := fst (tick key 18501 ready cooling) in
  resolve (Throw networkError) 5400 st = before
  /\ resolve (Throw networkError) 19000 st2
     = setError None (setIsCoolingDown false cooling).
Proof.
  intros before st cooling st2. split.
  - destruct (@non_quota_failure_is_contained key st (Throw networkError) 5400)
      as (_ & Htick & _).
    destruct (Htick networkError before 5000%Z ready (issued key ready before)
                eq_refl eq_refl eq_refl) as (_ & _ & _ & Hsame & _).
    exact (Hsame eq_refl).
  - destruct (@non_quota_failure_is_contained key st2 (Throw networkError) 19000)
      as (_ & Htick & _).
    destruct (Htick networkError cooling 18501%Z ready
                (issued key ready cooling)
                eq_refl eq_refl eq_refl) as (_ & _ & _ & _ & Hcool).
    exact (proj1 (proj2 (Hcool eq_refl))).
Defined.

End ScanLoop.

(** ** The invoker *)

Module InvokerFacts.

Import Invoker Scanner.

(** What [parse_response] does with a response that arrived. *)
Lemma parse_response_returns JSON_parse r v :
  parse_response JSON_parse (Return r) = Return v
  <-> exists t, text r = Some t /\ t <> [] /\ JSON_parse t = Return v.
Proof.
  unfold parse_response. destruct (text r) as [[| c t] |]; split.
  - discriminate.
  - intros (t & [= <-] & Hne & _). now elim Hne.
  - destruct (JSON_parse (c :: t)) eqn:Hp; [| discriminate].
    intros [= <-]. exists (c :: t). repeat split; [discriminate | exact Hp].
  - intros (t' & [= <-] & _ & ->). reflexivity.
  - discriminate.
  - intros (t & [=] & _).
Qed.

(** C8, as stated, fails.  The response text [{"summary": "Looks fine"}]
    parses, lacks nine of the ten required fields, and is returned by
    [analyzeImage] and by [analyzeText] as the analysis result; so is the
    empty object.  The scan loop then publishes it like any result. *)
Lemma partial_result_counterexample :
  parseJSON partialPayload = Return partialResult
  /\ satisfiesContract partialResult = false
  /\ analyzeImage parseJSON None (answering partialPayload)
       (s "AAAA") (s "image/jpeg") (Some (s "k")) None
     = Return partialResult
  /\ analyzeText parseJSON None (answering partialPayload)
       (s "sugar, palm oil") (Some (s "k")) None
     = Return partialResult
  /\ satisfiesContract (JObj []) = false
  /\ analyzeImage parseJSON None (answering (s "{}"))
       (s "AAAA") (s "image/jpeg") (Some (s "k")) None
     = Return (JObj [])
  /\ result (resolve (Return partialResult) 5000
               (setIsAnalyzing true (setIsStreaming true initial)))
     = Some partialResult.
Proof. vm_compute. repeat split; reflexivity. Qed.

(** C8 (amended).  Once a response has arrived, the call returns a result
    exactly when the response text is present, non-empty and accepted by
    [JSON.parse], and the result is then the parsed value as it is: the
    required fields are not examined.  A missing or empty text and a text
    that [JSON.parse] rejects are the failed attempts: the first throws the
    no-response error, the second what [JSON.parse] threw, passed through
    [handleGeminiError].  All of this holds for [analyzeImage] and for
    [analyzeText] alike. *)
Theorem parsed_payload_is_returned_unchecked
    JSON_parse env generateContent base64 mime query apiKey persona r v :
  finalApiKey env apiKey <> [] ->
  (forall request, generateContent request = Return r) ->
  (analyzeImage JSON_parse env generateContent base64 mime apiKey persona
   = Return v
   <-> exists t, text r = Some t /\ t <> [] /\ JSON_parse t = Return v)
  /\ (analyzeText JSON_parse env generateContent query apiKey persona
      = Return v
      <-> exists t, text r = Some t /\ t <> [] /\ JSON_parse t = Return v)
  /\ (text r = None \/ text r = Some [] ->
      analyzeImage JSON_parse env generateContent base64 mime apiKey persona
      = Throw (Error "No response text from Gemini")
      /\ analyzeText JSON_parse env generateContent query apiKey persona
         = Throw (Error "No response text from Gemini"))
  /\ (forall t e, text r = Some t -> t <> [] -> JSON_parse t = Throw e ->
      analyzeImage JSON_parse env generateContent base64 mime apiKey persona
      = Throw (handleGeminiError e)
      /\ analyzeText JSON_parse env generateContent query apiKey persona
         = Throw (handleGeminiError e)).
Proof.
  intros Hkey Hgen. unfold analyzeImage, analyzeText.
  destruct (finalApiKey env apiKey) as [| c k]; [now elim Hkey |].
  rewrite !Hgen. split; [| split; [| split]].
  - apply parse_response_returns.
  - apply parse_response_returns.
  - intros [Ht | Ht]; unfold parse_response; rewrite Ht; split; reflexivity.
  - intros t e Ht Hne Hp. unfold parse_response. rewrite Ht.
    destruct t; [now elim Hne |]. rewrite Hp. split; reflexivity.
Qed.

Lemma parsed_payload_is_returned_unchecked_witness :
  analyzeImage parseJSON None (answering partialPayload)
    (s "AAAA") (s "image/jpeg") (Some (s "k")) None
  = Return partialResult
  /\ analyzeText parseJSON None (answering partialPayload)
       (s "sugar") (Some (s "k")) None
     = Return partialResult.
Proof.
  destruct (@parsed_payload_is_returned_unchecked parseJSON None
              (answering partialPayload) (s "AAAA") (s "image/jpeg")
              (s "sugar") (Some (s "k")) None
              {| text := Some partialPayload |} partialResult
              ltac:(vm_compute; discriminate) (fun _ => eq_refl))
    as (Himage & Htext & _).
  split; [apply Himage | apply Htext];
    (exists partialPayload; repeat split; vm_compute; discriminate).
Defined.

End InvokerFacts.

(** ** The term matcher *)

Module MatcherFacts.

Import TermMatcher.

Lemma str_eqb_eq a b : str_eqb a b = true <-> a = b.
Proof.
  unfold str_eqb. destruct (list_eq_dec ascii_dec a b); intuition congruence.
Qed.

(** *** Matching one alternative *)

Lemma prefix_ci_length a rest :
  prefix_ci a rest = true -> length a <= length rest.
Proof.
  revert rest. induction a as [| x a IH]; intros [| y rest]; simpl;
    try lia; try discriminate.
  intros H. apply andb_true_iff in H as [_ H]. apply IH in H. lia.
Qed.

Lemma prefix_ci_firstn a rest :
  prefix_ci a rest = true -> ci_eq a (firstn (length a) rest).
Proof.
  unfold ci_eq. revert rest.
  induction a as [| x a IH]; intros [| y rest]; simpl;
    try reflexivity; try discriminate.
  intros H. apply andb_true_iff in H as [Hc H].
  apply Ascii.eqb_eq in Hc. rewrite Hc. f_equal. apply IH, H.
Qed.

Lemma prefix_ci_app a m rest :
  ci_eq a m -> prefix_ci a (m ++ rest) = true.
Proof.
  unfold ci_eq. revert m.
  induction a as [| x a IH]; intros [| y m]; simpl;
    try reflexivity; try discriminate.
  intros [= Hc H]. rewrite Hc, Ascii.eqb_refl. simpl. apply IH, H.
Qed.

Lemma ci_eq_length a b : ci_eq a b -> length a = length b.
Proof.
  unfold ci_eq, toLowerCase. intros H.
  rewrite <- (length_map toLowerChar a), H. apply length_map.
Qed.

(** *** One anchored attempt *)

Lemma exec_sticky_some alts rest n :
  exec_sticky alts rest = Some n ->
  exists a, In a alts /\ length a = n /\ prefix_ci a rest = true.
Proof.
  induction alts as [| a alts IH]; simpl; [discriminate |].
  destruct (prefix_ci a rest) eqn:Ha.
  - intros [= <-]. exists a. auto.
  - intros H. destruct (IH H) as (b & Hb & Hl & Hp). exists b. auto.
Qed.

Lemma exec_sticky_none alts rest a :
  exec_sticky alts rest = None -> In a alts -> prefix_ci a rest = false.
Proof.
  induction alts as [| b alts IH]; simpl; [contradiction |].
  destruct (prefix_ci b rest) eqn:Hb; [discriminate |].
  intros H [<- | Hin]; [exact Hb | apply IH; assumption].
Qed.

(** With the alternatives in descending length, the attempt finds a longest
    alternative that matches. *)
Lemma exec_sticky_longest alts rest n a :
  StronglySorted longer_first alts ->
  exec_sticky alts rest = Some n ->
  In a alts -> prefix_ci a rest = true -> length a <= n.
Proof.
  induction 1 as [| b alts Hs IH Hall]; simpl; [contradiction |].
  destruct (prefix_ci b rest) eqn:Hb.
  - intros [= <-] [<- | Hin] _; [lia |].
    rewrite Forall_forall in Hall. apply Hall, Hin.
  - intros H [<- | Hin] Ha; [congruence | apply IH; assumption].
Qed.

(** *** The sort *)

Lemma insert_desc_perm v l : Permutation (insert_desc v l) (v :: l).
Proof.
  induction l as [| w l IH]; simpl; [reflexivity |].
  destruct (length (name v) <? length (name w)); [| reflexivity].
  rewrite IH. apply perm_swap.
Qed.

Lemma sortedVillains_perm l : Permutation (sortedVillains l) l.
Proof.
  induction l as [| v l IH]; simpl; [reflexivity |].
  rewrite insert_desc_perm. now apply perm_skip.
Qed.

Lemma insert_desc_sorted v l :
  StronglySorted by_length l -> StronglySorted by_length (insert_desc v l).
Proof.
  induction 1 as [| w l Hs IH Hall]; simpl.
  - repeat constructor.
  - destruct (Nat.ltb_spec (length (name v)) (length (name w))).
    + constructor; [exact IH |].
      rewrite Forall_forall in *. intros x Hx.
      apply (Permutation_in _ (insert_desc_perm v l)) in Hx.
      destruct Hx as [<- | Hx]; [unfold by_length; lia | apply Hall, Hx].
    + constructor; [constructor; assumption |].
      constructor; [exact H |].
      rewrite Forall_forall in *. intros x Hx.
      specialize (Hall x Hx). unfold by_length in *. lia.
Qed.

Lemma sortedVillains_sorted l : StronglySorted by_length (sortedVillains l).
Proof.
  induction l as [| v l IH]; simpl; [constructor | now apply insert_desc_sorted].
Qed.

(** The sort is stable: elements that a test cannot tell apart by length
    keep their relative order. *)
Lemma insert_desc_filter (p : Villain -> bool) v l :
  (forall x y, p x = true -> p y = true ->
               length (name x) = length (name y)) ->
  filter p (insert_desc v l) = filter p (v :: l).
Proof.
  intros Hp. induction l as [| w l IH]; simpl; [reflexivity |].
  destruct (Nat.ltb_spec (length (name v)) (length (name w))); [| reflexivity].
  simpl. rewrite IH. simpl.
  destruct (p v) eqn:Hv, (p w) eqn:Hw; try reflexivity.
  specialize (Hp v w Hv Hw). lia.
Qed.

Lemma sortedVillains_filter (p : Villain -> bool) l :
  (forall x y, p x = true -> p y = true ->
               length (name x) = length (name y)) ->
  filter p (sortedVillains l) = filter p l.
Proof.
  intros Hp. induction l as [| v l IH]; simpl; [reflexivity |].
  rewrite insert_desc_filter by exact Hp. simpl. now rewrite IH.
Qed.

Lemma find_filter {A} (p : A -> bool) l : find p l = hd_error (filter p l).
Proof.
  induction l as [| x l IH]; simpl; [reflexivity |].
  destruct (p x); [reflexivity | exact IH].
Qed.

Lemma names_sorted l :
  StronglySorted longer_first (map name (sortedVillains l)).
Proof.
  generalize (sortedVillains_sorted l).
  induction 1 as [| v vs Hs IH Hall]; simpl; constructor; [exact IH |].
  rewrite Forall_forall in *. intros x Hx.
  apply in_map_iff in Hx as (w & <- & Hw). apply Hall, Hw.
Qed.

Lemma names_sorted_in l a :
  In a (map name (sortedVillains l)) <-> In a (map name l).
Proof.
  split; apply Permutation_in, Permutation_map;
    [| symmetry]; apply sortedVillains_perm.
Qed.

(** The villain looked up for a part is the first term, in the order the
    terms were given, whose name equals the part up to case. *)
Lemma matchedVillain_original l part :
  matchedVillain (sortedVillains l) part = matchedVillain l part.
Proof.
  unfold matchedVillain. rewrite !find_filter. f_equal.
  apply sortedVillains_filter. intros x y Hx Hy.
  apply str_eqb_eq in Hx, Hy.
  transitivity (length part); [| symmetry]; apply ci_eq_length; assumption.
Qed.

Lemma matchedVillain_some l part :
  (exists a, In a (map name l) /\ ci_eq a part) ->
  exists v, matchedVillain l part = Some v /\ In v l /\ ci_eq (name v) part.
Proof.
  intros (a & Ha & Hci). apply in_map_iff in Ha as (w & <- & Hw).
  unfold matchedVillain.
  destruct (find _ l) as [v |] eqn:Hf.
  - apply find_some in Hf as [Hin Hv]. apply str_eqb_eq in Hv. eauto.
  - apply (find_none _ _ Hf) in Hw.
    apply not_true_iff_false in Hw. elim Hw. now apply str_eqb_eq.
Qed.

Lemma matchedVillain_none l part :
  (forall a, In a (map name l) -> ~ ci_eq a part) ->
  matchedVillain l part = None.
Proof.
  intros H. unfold matchedVillain.
  destruct (find _ l) as [v |] eqn:Hf; [| reflexivity].
  apply find_some in Hf as [Hin Hv]. apply str_eqb_eq in Hv.
  elim (H (name v)); [now apply in_map | exact Hv].
Qed.

(** *** The split loop *)

Lemma split_loop_cons alts pending c rest :
  split_loop alts pending (c :: rest) =
  match exec_sticky alts (c :: rest) with
  | None => split_loop alts (pending ++ [c]) rest
  | Some 0 =>
      match pending with
      | [] => split_loop alts [c] rest
      | _ :: _ => pending :: [] :: split_loop alts [c] rest
      end
  | Some (S n) =>
      pending :: firstn (S n) (c :: rest)
              :: split_loop alts [] (skipn n rest)
  end.
Proof.
  simp split_loop.
  destruct (exec_sticky alts (c :: rest)) as [[| n] |]; simpl; try reflexivity.
  destruct pending; reflexivity.
Qed.

(** The parts, put back together, are the text. *)
Lemma split_loop_concat alts n :
  forall pending rest, length rest <= n ->
  concat (split_loop alts pending rest) = pending ++ rest.
Proof.
  induction n as [| n IH]; intros pending [| c rest] Hlen; simpl in Hlen;
    try lia; try (simp split_loop; simpl; reflexivity).
  rewrite split_loop_cons.
  destruct (exec_sticky alts (c :: rest)) as [[| k] |].
  - destruct pending as [| p ps]; simpl.
    + apply IH. lia.
    + rewrite IH by lia. reflexivity.
  - cbn [concat]. rewrite IH by (pose proof (length_skipn k rest); lia).
    cbn [firstn app]. rewrite firstn_skipn. reflexivity.
  - rewrite IH by lia. rewrite <- app_assoc. reflexivity.
Qed.

Lemma split_concat alts text : concat (split alts text) = text.
Proof.
  destruct text as [| c text]; simpl.
  - destruct (exec_sticky alts []); reflexivity.
  - apply (split_loop_concat alts (S (length text))). simpl. lia.
Qed.

Lemma concat_cons_length (x : str) (l : list str) :
  length (concat (x :: l)) = length x + length (concat l).
Proof. simpl. apply length_app. Qed.

(** Every occurrence of a non-empty alternative begins inside a captured
    part, and a capture that begins where the occurrence begins is at least
    as long. *)
Lemma split_loop_covers alts n :
  StronglySorted longer_first alts ->
  forall pending rest j a,
    length rest <= n -> In a alts -> a <> [] ->
    prefix_ci a (skipn j rest) = true ->
    exists before m after,
      split_loop alts pending rest = before ++ m :: after
      /\ (exists b, In b alts /\ ci_eq b m)
      /\ length (concat before) <= length pending + j
      /\ length pending + j < length (concat before) + length m
      /\ (length (concat before) = length pending + j ->
          length a <= length m).
Proof.
  intros Hs. induction n as [| n IH]; intros pending [| c rest] j a Hlen Ha Hne Hocc;
    simpl in Hlen; try lia.
  1-2: rewrite skipn_nil in Hocc; destruct a; [now elim Hne | discriminate].
  rewrite split_loop_cons.
  destruct (exec_sticky alts (c :: rest)) as [[| k] |] eqn:He.
  - (* an empty match: no non-empty alternative matches here *)
    destruct j as [| j].
    { pose proof (exec_sticky_longest _ _ _ a Hs He Ha Hocc) as Hl.
      destruct a; [now elim Hne | simpl in Hl; lia]. }
    destruct (IH [c] rest j a ltac:(lia) Ha Hne Hocc)
      as (before & m & after & Heq & Hb & Hlo & Hhi & Hfit).
    simpl in Hlo, Hhi, Hfit.
    destruct pending as [| p ps].
    + exists before, m, after. simpl. repeat split; auto; lia.
    + exists ((p :: ps) :: [] :: before), m, after. rewrite Heq.
      rewrite !concat_cons_length. cbn [length] in *.
      repeat split; auto; lia.
  - (* a match of [S k] characters *)
    destruct (exec_sticky_some _ _ _ He) as (b & Hb & Hbl & Hbp).
    pose proof (prefix_ci_length _ _ Hbp) as Hfits.
    pose proof (prefix_ci_firstn _ _ Hbp) as Hci. rewrite Hbl in Hci, Hfits.
    assert (Hm : length (firstn (S k) (c :: rest)) = S k)
      by (rewrite length_firstn; lia).
    destruct (Nat.lt_ge_cases j (S k)) as [Hj | Hj].
    + exists [pending], (firstn (S k) (c :: rest)),
             (split_loop alts [] (skipn k rest)).
      rewrite concat_cons_length. cbn [concat length]. rewrite Hm.
      repeat split; eauto; try lia.
      intros Hz. assert (j = 0) by lia. subst j.
      apply (exec_sticky_longest _ _ _ a Hs He Ha Hocc).
    + replace j with ((j - S k) + S k) in Hocc by lia.
      rewrite <- skipn_skipn in Hocc. simpl skipn at 2 in Hocc.
      destruct (IH [] (skipn k rest) (j - S k) a
                  ltac:(pose proof (length_skipn k rest); lia) Ha Hne Hocc)
        as (before & m & after & Heq & Hb' & Hlo & Hhi & Hfit).
      simpl in Hlo, Hhi, Hfit.
      exists (pending :: firstn (S k) (c :: rest) :: before), m, after.
      rewrite Heq, !concat_cons_length, Hm.
      repeat split; auto; lia.
  - (* no match *)
    destruct j as [| j].
    { cbn [skipn] in Hocc.
      rewrite (exec_sticky_none _ _ a He Ha) in Hocc. discriminate. }
    destruct (IH (pending ++ [c]) rest j a ltac:(lia) Ha Hne Hocc)
      as (before & m & after & Heq & Hb & Hlo & Hhi & Hfit).
    rewrite length_app in Hlo, Hhi, Hfit. simpl in Hlo, Hhi, Hfit.
    exists before, m, after. repeat split; auto; lia.
Qed.

Lemma clean_not_alt alts pending rest b :
  clean alts pending rest -> pending <> [] -> In b alts -> ~ ci_eq b pending.
Proof.
  intros [-> | H] Hne Hb Hci; [now elim Hne |].
  assert (Hbne : b <> []).
  { intros ->. apply ci_eq_length in Hci. destruct pending; [now elim Hne | discriminate]. }
  specialize (H b Hb Hbne).
  rewrite (prefix_ci_app b pending rest Hci) in H. discriminate.
Qed.

Lemma skipn_length_app (l1 l2 : str) k :
  skipn (length l1 + k) (l1 ++ l2) = skipn k l2.
Proof. induction l1 as [| x l1 IH]; simpl; [reflexivity | exact IH]. Qed.

(** A non-empty part that equals an alternative up to case is a capture:
    it is what the anchored attempt at its own offset matched. *)
Lemma split_loop_match alts n :
  StronglySorted longer_first alts ->
  forall pending rest,
    length rest <= n -> clean alts pending rest ->
    forall before m after,
      split_loop alts pending rest = before ++ m :: after ->
      m <> [] -> (exists b, In b alts /\ ci_eq b m) ->
      exec_sticky alts (skipn (length (concat before)) (pending ++ rest))
      = Some (length m)
      /\ m = firstn (length m)
                (skipn (length (concat before)) (pending ++ rest)).
Proof.
  intros Hs. induction n as [| n IH];
    intros pending [| c rest] Hlen Hclean before m after Heq Hne (b & Hb & Hci);
    simpl in Hlen; try lia.
  1-2: simp split_loop in Heq;
       destruct before as [| x [| y before]]; try discriminate;
       injection Heq as -> _;
       elim (clean_not_alt alts m [] b Hclean Hne Hb Hci).
  rewrite split_loop_cons in Heq.
  destruct (exec_sticky alts (c :: rest)) as [[| k] |] eqn:He.
  - (* an empty match *)
    assert (Hc : clean alts [c] rest).
    { right. intros a Ha Hane.
      destruct (prefix_ci a ([c] ++ rest)) eqn:Hp; [| reflexivity].
      pose proof (exec_sticky_longest _ _ _ a Hs He Ha Hp) as Hl.
      destruct a; [now elim Hane | simpl in Hl; lia]. }
    destruct pending as [| p ps].
    + apply (IH [c] rest ltac:(lia) Hc before m after Heq Hne). eauto.
    + destruct before as [| x [| y before]].
      * injection Heq as <- _.
        elim (clean_not_alt alts (p :: ps) (c :: rest) b Hclean Hne Hb Hci).
      * injection Heq as _ <- _. now elim Hne.
      * injection Heq as <- <- Heq.
        rewrite !concat_cons_length. cbn [length Nat.add].
        change (S (length ps + length (concat before)))
          with (length (p :: ps) + length (concat before)).
        rewrite skipn_length_app.
        apply (IH [c] rest ltac:(lia) Hc before m after Heq Hne). eauto.
  - (* a match of [S k] characters *)
    destruct (exec_sticky_some _ _ _ He) as (a & Ha & Hal & Hap).
    pose proof (prefix_ci_length _ _ Hap) as Hfits. rewrite Hal in Hfits.
    assert (Hm : length (firstn (S k) (c :: rest)) = S k)
      by (rewrite length_firstn; lia).
    remember (firstn (S k) (c :: rest)) as m0 eqn:Hm0.
    destruct before as [| x [| y before]].
    + injection Heq as <- _.
      destruct pending as [| p ps]; [now elim Hne |].
      elim (clean_not_alt alts (p :: ps) (c :: rest) b Hclean Hne Hb Hci).
    + injection Heq as <- <- _.
      rewrite concat_cons_length. cbn [concat length].
      rewrite skipn_length_app. cbn [skipn]. rewrite Hm.
      split; [exact He | exact Hm0].
    + injection Heq as <- <- Heq.
      rewrite !concat_cons_length, skipn_length_app, Hm.
      rewrite (Nat.add_comm (S k)), <- skipn_skipn. cbn [skipn].
      apply (IH [] (skipn k rest)
               ltac:(pose proof (length_skipn k rest); lia)
               ltac:(left; reflexivity) before m after Heq Hne).
      eauto.
  - (* no match *)
    assert (Hc : clean alts (pending ++ [c]) rest).
    { right. intros a Ha Hane. rewrite <- app_assoc. simpl.
      destruct Hclean as [-> | Hclean]; [| now apply Hclean].
      apply (exec_sticky_none _ _ a He Ha). }
    rewrite (app_assoc pending [c] rest : pending ++ c :: rest = _).
    apply (IH (pending ++ [c]) rest ltac:(lia) Hc before m after Heq Hne).
    eauto.
Qed.

(** *** Rendering the parts *)

Lemma texts_cons_length sp spans :
  length (texts (sp :: spans)) = length (span_text sp) + length (texts spans).
Proof. unfold texts. simpl. apply length_app. Qed.

Lemma inside_match_from_spec spans : forall off i n,
  inside_match_from off spans i n = true <->
  exists before m w after,
    spans = before ++ Match m w :: after
    /\ off + length (texts before) <= i
    /\ i + n <= off + length (texts before) + length m.
Proof.
  induction spans as [| sp spans IH]; intros off i n; simpl.
  - split; [discriminate |]. intros (before & m & w & after & H & _).
    destruct before; discriminate.
  - rewrite orb_true_iff, IH, !andb_true_iff, !Nat.leb_le. split.
    + intros [[[Hm Hlo] Hhi] | (before & m & w & after & -> & Hlo & Hhi)].
      * destruct sp as [| m w]; [discriminate |].
        exists [], m, w, spans. simpl in *. repeat split; lia.
      * exists (sp :: before), m, w, after. rewrite texts_cons_length.
        repeat split; lia.
    + intros (before & m & w & after & Heq & Hlo & Hhi).
      destruct before as [| sp' before]; simpl in Heq; injection Heq as -> ->.
      * left. simpl in *. repeat split; lia.
      * right. exists before, m, w, after. rewrite texts_cons_length in *.
        repeat split; lia.
Qed.

Lemma render_part_text sorted part : span_text (render_part sorted part) = part.
Proof. unfold render_part. destruct (matchedVillain sorted part); reflexivity. Qed.

Lemma texts_render sorted parts :
  texts (map (render_part sorted) parts) = concat parts.
Proof.
  unfold texts. induction parts as [| part parts IH]; simpl; [reflexivity |].
  now rewrite render_part_text, IH.
Qed.

(** *** The pattern source and its alternatives *)

Lemma isSpecial_plain c :
  isSpecial c = false ->
  Ascii.eqb c backslash = false /\ Ascii.eqb c "|"%char = false
  /\ Ascii.eqb c ")"%char = false.
Proof.
  intros H. repeat split.
  all: destruct (Ascii.eqb_spec c backslash) as [-> | _];
       try (vm_compute in H; discriminate).
  all: destruct (Ascii.eqb_spec c "|"%char) as [-> | _];
       try (vm_compute in H; discriminate).
  all: destruct (Ascii.eqb_spec c ")"%char) as [-> | _];
       try (vm_compute in H; discriminate).
  all: reflexivity.
Qed.

(** Reading an escaped name gives the name back, character by character. *)
Lemma read_alts_escape a : forall cur rest,
  read_alts cur (escapeRegExp a ++ rest) = read_alts (cur ++ a) rest.
Proof.
  induction a as [| c a IH]; intros cur rest.
  - simpl. now rewrite app_nil_r.
  - change (escapeRegExp (c :: a))
      with ((if isSpecial c then [backslash; c] else [c]) ++ escapeRegExp a).
    rewrite (app_assoc cur [c] a : cur ++ c :: a = _).
    destruct (isSpecial c) eqn:Hc.
    + cbn [app read_alts]. rewrite Ascii.eqb_refl. apply IH.
    + destruct (isSpecial_plain c Hc) as (Hb & Hp & Hr).
      cbn [app read_alts]. rewrite Hb, Hp, Hr, Hc. apply IH.
Qed.

Lemma read_alts_join names : forall a cur,
  read_alts cur (join (s "|") (map escapeRegExp (a :: names)) ++ s ")")
  = Some ((cur ++ a) :: names).
Proof.
  induction names as [| b names IH]; intros a cur.
  - cbn [map join]. rewrite read_alts_escape. reflexivity.
  - change (join (s "|") (map escapeRegExp (a :: b :: names)))
      with (escapeRegExp a ++ s "|"
            ++ join (s "|") (map escapeRegExp (b :: names))).
    rewrite <- !app_assoc, read_alts_escape.
    change (s "|" ++ ?x) with ("|"%char :: x).
    cbn [read_alts]. change (Ascii.eqb "|" backslash) with false.
    change (Ascii.eqb "|" "|") with true. cbv iota.
    rewrite IH. reflexivity.
Qed.

(** The compiled pattern has exactly the names as alternatives, each taken
    literally, in the sorted order. *)
Lemma alternatives_source sorted :
  sorted <> [] -> alternatives (pattern_source sorted) = map name sorted.
Proof.
  destruct sorted as [| v sorted]; [intros H; now elim H | intros _].
  unfold pattern_source, alternatives.
  change (s "(" ++ ?x) with ("("%char :: x).
  change (Ascii.eqb "(" "(") with true. cbv iota.
  rewrite <- (map_map name escapeRegExp), (map_cons name v sorted).
  rewrite read_alts_join. reflexivity.
Qed.

(** The live view's copy of the component behaves as the original. *)
Lemma LiveTextWithVillains_same text villains :
  LiveTextWithVillains text villains = TextWithVillains text villains.
Proof. reflexivity. Qed.

(** The matcher on a non-empty list of terms. *)
Lemma matcher_cons text v terms :
  matcher text (v :: terms) =
  map (render_part (sortedVillains (v :: terms)))
      (split (map name (sortedVillains (v :: terms))) text).
Proof.
  unfold matcher, TextWithVillains. cbv zeta.
  rewrite alternatives_source; [reflexivity |].
  intros H. pose proof (sortedVillains_perm (v :: terms)) as Hp.
  rewrite H in Hp. apply Permutation_nil in Hp. discriminate.
Qed.

(** A capture is rendered as a [Match] on the first term, in the given
    order, that carries its name. *)
Lemma render_capture terms m :
  (exists b, In b (map name (sortedVillains terms)) /\ ci_eq b m) ->
  exists w, render_part (sortedVillains terms) m = Match m w
            /\ matchedVillain terms m = Some w.
Proof.
  intros (b & Hb & Hci). apply (proj1 (names_sorted_in _ _)) in Hb.
  destruct (matchedVillain_some terms m (ex_intro _ b (conj Hb Hci)))
    as (w & Hw & _).
  exists w. unfold render_part. rewrite matchedVillain_original, Hw. auto.
Qed.

Lemma render_match_inv terms part m w :
  render_part (sortedVillains terms) part = Match m w ->
  part = m /\ matchedVillain terms m = Some w
  /\ exists b, In b (map name (sortedVillains terms)) /\ ci_eq b m.
Proof.
  unfold render_part. rewrite matchedVillain_original.
  destruct (matchedVillain terms part) as [v |] eqn:Hv; [| discriminate].
  intros [= -> ->]. repeat split; [exact Hv |].
  unfold matchedVillain in Hv. apply find_some in Hv as [Hin Hci].
  apply str_eqb_eq in Hci. exists (name w). split; [| exact Hci].
  apply (proj2 (names_sorted_in _ _)), in_map, Hin.
Qed.

Lemma occurs_at_empty a i : a <> [] -> ~ occurs_at a [] i.
Proof.
  unfold occurs_at. rewrite skipn_nil. destruct a; [tauto | discriminate].
Qed.

(** The matcher's spans put back together are the text. *)
Lemma matcher_texts text terms : texts (matcher text terms) = text.
Proof.
  destruct terms as [| v terms].
  - unfold texts. simpl. apply app_nil_r.
  - rewrite matcher_cons, texts_render. apply split_concat.
Qed.

(** Every occurrence of a non-empty term name begins inside a [Match]
    span. *)
Lemma matcher_covers text terms v i :
  In v terms -> name v <> [] -> occurs_at (name v) text i ->
  exists before m w after,
    matcher text terms = before ++ Match m w :: after
    /\ length (texts before) <= i < length (texts before) + length m
    /\ (length (texts before) = i -> length (name v) <= length m).
Proof.
  intros Hv Hne Hocc.
  destruct terms as [| v0 terms]; [contradiction |].
  destruct text as [| c text]; [elim (occurs_at_empty _ i Hne Hocc) |].
  rewrite matcher_cons. cbn [split].
  set (sorted := sortedVillains (v0 :: terms)).
  assert (Ha : In (name v) (map name sorted))
    by (apply (proj2 (names_sorted_in _ _)), in_map, Hv).
  destruct (split_loop_covers (map name sorted) (S (length text))
              (names_sorted _) [] (c :: text) i (name v)
              ltac:(simpl; lia) Ha Hne Hocc)
    as (before & m & after & Heq & Hb & Hlo & Hhi & Hfit).
  destruct (render_capture (v0 :: terms) m Hb) as (w & Hw & _).
  exists (map (render_part sorted) before), m, w,
         (map (render_part sorted) after).
  rewrite Heq, map_app, texts_render. cbn [map]. fold sorted in Hw.
  rewrite Hw. cbn [length Nat.add] in Hlo, Hhi, Hfit.
  repeat split; auto.
Qed.

(** A non-empty [Match] span is what the anchored attempt at its offset
    matched. *)
Lemma matcher_match text terms before m w after :
  matcher text terms = before ++ Match m w :: after -> m <> [] ->
  exec_sticky (map name (sortedVillains terms))
              (skipn (length (texts before)) text)
  = Some (length m)
  /\ m = firstn (length m) (skipn (length (texts before)) text)
  /\ matchedVillain terms m = Some w.
Proof.
  intros Heq Hne.
  destruct terms as [| v0 terms].
  { destruct before as [| ? [| ? ?]]; discriminate. }
  rewrite matcher_cons in Heq.
  apply map_eq_app in Heq as (pb & ps & Hparts & <- & Hps).
  destruct ps as [| part pa]; [discriminate |]. cbn [map] in Hps.
  injection Hps as Hpart _.
  apply (render_match_inv (v0 :: terms)) in Hpart as (-> & Hw & Hb).
  rewrite texts_render.
  destruct text as [| c text].
  - simpl in Hparts. destruct (exec_sticky _ []); [destruct pb; discriminate |].
    destruct pb as [| ? [| ? ?]]; try discriminate.
    injection Hparts as <-. now elim Hne.
  - cbn [split] in Hparts.
    destruct (split_loop_match (map name (sortedVillains (v0 :: terms)))
                (S (length text)) (names_sorted _) [] (c :: text)
                ltac:(simpl; lia) ltac:(left; reflexivity)
                pb m pa Hparts Hne Hb) as [He Hm].
    auto.
Qed.

(** *** C2: the spans reassemble the text and cover the occurrences *)

(** C2, as stated, fails.  In the text "Palm Oil Blend", with the terms
    "Palm Oil" and "Oil Blend", the name "Oil Blend" occurs at offset 5.
    The matcher yields an empty plain span, a [Match] on "Palm Oil" and the
    plain span " Blend": the occurrence of "Oil Blend" lies inside no
    [Match] span.  The span texts still put the input back together. *)
Lemma every_occurrence_counterexample :
  let text := s "Palm Oil Blend" in
  let terms := [term "Palm Oil"; term "Oil Blend"] in
  matcher text terms
  = [Plain []; Match (s "Palm Oil") (term "Palm Oil"); Plain (s " Blend")]
  /\ occurs_at (s "Oil Blend") text 5
  /\ inside_match (matcher text terms) 5 (length (s "Oil Blend")) = false
  /\ ~ (exists before m w after,
          matcher text terms = before ++ Match m w :: after
          /\ length (texts before) <= 5
          /\ 5 + length (s "Oil Blend") <= length (texts before) + length m)
  /\ texts (matcher text terms) = text.
Proof.
  intros text terms.
  assert (Hout : inside_match (matcher text terms) 5 (length (s "Oil Blend"))
                 = false) by (vm_compute; reflexivity).
  split; [vm_compute; reflexivity |].
  split; [vm_compute; reflexivity |].
  split; [exact Hout |].
  split; [| vm_compute; reflexivity].
  intros H.
  apply (proj2 (inside_match_from_spec (matcher text terms) 0 5
                  (length (s "Oil Blend")))) in H.
  unfold inside_match in Hout. rewrite Hout in H. discriminate.
Qed.

(** C2 (amended).  For every text and every list of terms, the span texts
    concatenated in order are the input.  Every occurrence of a non-empty
    term name, compared without case, begins inside a [Match] span; it lies
    wholly inside that span unless the span began before the occurrence
    did, that is, unless the occurrence overlaps an earlier match.  For
    "Contains Maltodextrin and Corn Syrup" and the terms "Corn Syrup" and
    "Maltodextrin", in either order, both names are [Match] spans. *)
Theorem spans_reassemble_and_cover text terms :
  texts (matcher text terms) = text
  /\ (forall v i,
        In v terms -> name v <> [] -> occurs_at (name v) text i ->
        exists before m w after,
          matcher text terms = before ++ Match m w :: after
          /\ length (texts before) <= i < length (texts before) + length m
          /\ (i + length (name v) <= length (texts before) + length m
              \/ length (texts before) < i))
  /\ (let spans :=
         [Plain (s "Contains ");
          Match (s "Maltodextrin") (term "Maltodextrin");
          Plain (s " and ");
          Match (s "Corn Syrup") (term "Corn Syrup");
          Plain []] in
      matcher (s "Contains Maltodextrin and Corn Syrup")
        [term "Corn Syrup"; term "Maltodextrin"] = spans
      /\ matcher (s "Contains Maltodextrin and Corn Syrup")
           [term "Maltodextrin"; term "Corn Syrup"] = spans).
Proof.
  split; [apply matcher_texts |]. split.
  - intros v i Hv Hne Hocc.
    destruct (matcher_covers text terms v i Hv Hne Hocc)
      as (before & m & w & after & Heq & Hin & Hfit).
    exists before, m, w, after. repeat split; try tauto.
    destruct (Nat.eq_dec (length (texts before)) i) as [He | He].
    + left. specialize (Hfit He). lia.
    + right. lia.
  - vm_compute. split; reflexivity.
Qed.

Lemma spans_reassemble_and_cover_witness :
  exists before m w after,
    matcher (s "Palm Oil Blend") [term "Palm Oil"; term "Oil Blend"]
    = before ++ Match m w :: after
    /\ length (texts before) <= 5 < length (texts before) + length m
    /\ (5 + length (name (term "Oil Blend"))
          <= length (texts before) + length m
        \/ length (texts before) < 5).
Proof.
  apply (proj1 (proj2 (spans_reassemble_and_cover (s "Palm Oil Blend")
                         [term "Palm Oil"; term "Oil Blend"]))).
  - right. left. reflexivity.
  - discriminate.
  - reflexivity.
Defined.

(** *** C5: longer terms and shorter terms *)

(** C5, as stated, fails.  The terms are "Oil", "Palm Oil" and "Red Palm",
    so "Oil" is part of "Palm Oil"; the text "Red Palm Oil" contains the
    longer name at offset 4.  The scan matches "Red Palm" first and resumes
    behind it, where only "Oil" matches: no [Match] span covers "Palm Oil",
    and the shorter name inside it is a [Match] span. *)
Lemma longer_term_counterexample :
  let text := s "Red Palm Oil" in
  let terms := [term "Oil"; term "Palm Oil"; term "Red Palm"] in
  includes (s "Palm Oil") (s "Oil") = true
  /\ occurs_at (s "Palm Oil") text 4
  /\ matcher text terms
     = [Plain []; Match (s "Red Palm") (term "Red Palm"); Plain (s " ");
        Match (s "Oil") (term "Oil"); Plain []]
  /\ inside_match (matcher text terms) 4 (length (s "Palm Oil")) = false.
Proof. vm_compute. repeat split; reflexivity. Qed.

(** C5 (amended).  The terms are arranged by a stable sort on name length,
    longest first: ties keep the order in which the terms were given.
    Every non-empty [Match] span is, at the offset where it starts, an
    occurrence of a term name of the greatest length among the names that
    occur there, and it carries the first term in the given order with that
    name; so where the scan attempts a match a shorter name never wins over
    a longer one.  For "High Fructose Corn Syrup is present" with the terms
    "Corn Syrup" and "High Fructose Corn Syrup" the result is one [Match]
    span on the full phrase. *)
Theorem longest_term_wins_where_scanned text terms :
  (Permutation (sortedVillains terms) terms
   /\ StronglySorted by_length (sortedVillains terms)
   /\ forall n,
        filter (fun v => length (name v) =? n) (sortedVillains terms)
        = filter (fun v => length (name v) =? n) terms)
  /\ (forall before m w after,
        matcher text terms = before ++ Match m w :: after -> m <> [] ->
        m = firstn (length m) (skipn (length (texts before)) text)
        /\ matchedVillain terms m = Some w
        /\ forall v,
             In v terms -> occurs_at (name v) text (length (texts before)) ->
             length (name v) <= length m)
  /\ matcher (s "High Fructose Corn Syrup is present")
       [term "Corn Syrup"; term "High Fructose Corn Syrup"]
     = [Plain [];
        Match (s "High Fructose Corn Syrup") (term "High Fructose Corn Syrup");
        Plain (s " is present")].
Proof.
  split; [| split].
  - split; [apply sortedVillains_perm |].
    split; [apply sortedVillains_sorted |].
    intros n. apply sortedVillains_filter. intros x y Hx Hy.
    apply Nat.eqb_eq in Hx, Hy. congruence.
  - intros before m w after Heq Hne.
    destruct (matcher_match text terms before m w after Heq Hne)
      as (He & Hm & Hw).
    repeat split; try assumption.
    intros v Hv Hocc.
    apply (exec_sticky_longest _ _ _ (name v) (names_sorted terms) He);
      [| exact Hocc].
    apply (proj2 (names_sorted_in _ _)), in_map, Hv.
  - vm_compute. reflexivity.
Qed.

Lemma longest_term_wins_where_scanned_witness :
  matchedVillain [term "High Fructose"; term "High Fructose Corn Syrup"]
    (s "High Fructose Corn Syrup")
  = Some (term "High Fructose Corn Syrup")
  /\ length (name (term "High Fructose"))
     <= length (s "High Fructose Corn Syrup").
Proof.
  destruct (longest_term_wins_where_scanned
              (s "High Fructose Corn Syrup is present")
              [term "High Fructose"; term "High Fructose Corn Syrup"])
    as (_ & Hlong & _).
  destruct (Hlong [Plain []] (s "High Fructose Corn Syrup")
              (term "High Fructose Corn Syrup") [Plain (s " is present")]
              eq_refl ltac:(discriminate)) as (_ & Hfirst & Hmax).
  split; [exact Hfirst |].
  apply Hmax; [left |]; reflexivity.
Defined.

(** *** C9: empty inputs *)

(** C9, as stated, fails on the empty text.  With the term "Corn Syrup",
    and with no term at all, the empty text yields one plain span with empty
    text, not the empty sequence. *)
Lemma empty_text_counterexample :
  matcher [] [term "Corn Syrup"] = [Plain []]
  /\ matcher [] [] = [Plain []]
  /\ matcher [] [term "Corn Syrup"] <> [].
Proof. vm_compute. repeat split; discriminate. Qed.

(** C9 (amended).  With an empty list of terms the matcher yields exactly
    one plain span whose text is the input, for every text.  On the empty
    text it yields exactly one plain span with empty text when no term has
    an empty name (the empty list of terms included), and the empty
    sequence when some term has an empty name. *)
Theorem empty_input_laws :
  (forall text, matcher text [] = [Plain text])
  /\ (forall terms,
        (forall v, In v terms -> name v <> []) -> matcher [] terms = [Plain []])
  /\ (forall terms,
        (exists v, In v terms /\ name v = []) -> matcher [] terms = []).
Proof.
  split; [reflexivity |]. split.
  - intros [| v0 terms] Hall; [reflexivity |].
    rewrite matcher_cons. cbn [split].
    destruct (exec_sticky _ []) as [n |] eqn:He.
    + destruct (exec_sticky_some _ _ _ He) as (a & Ha & _ & Hp).
      apply (proj1 (names_sorted_in _ _)) in Ha.
      apply in_map_iff in Ha as (v & <- & Hv).
      specialize (Hall v Hv). destruct (name v); [now elim Hall | discriminate].
    + cbn [map]. unfold render_part.
      rewrite matchedVillain_original, matchedVillain_none; [reflexivity |].
      intros a Ha Hci. apply in_map_iff in Ha as (v & <- & Hv).
      apply ci_eq_length in Hci. specialize (Hall v Hv).
      destruct (name v); [now elim Hall | discriminate].
  - intros [| v0 terms] (v & Hv & Hempty); [contradiction |].
    rewrite matcher_cons. cbn [split].
    destruct (exec_sticky _ []) as [n |] eqn:He; [reflexivity |].
    assert (Ha : In (name v) (map name (sortedVillains (v0 :: terms))))
      by (apply (proj2 (names_sorted_in _ _)), in_map, Hv).
    rewrite Hempty in Ha.
    pose proof (exec_sticky_none _ _ [] He Ha) as Hp. discriminate.
Qed.

Lemma empty_input_laws_witness :
  matcher [] [term "Corn Syrup"; term "Maltodextrin"] = [Plain []]
  /\ matcher [] [term "Corn Syrup"; {| name := []; explanation := [] |}] = [].
Proof.
  destruct empty_input_laws as (_ & Hplain & Hnone). split.
  - apply Hplain. intros v [<- | [<- | []]]; discriminate.
  - apply Hnone. exists {| name := []; explanation := [] |}.
    split; [right; left |]; reflexivity.
Defined.

End MatcherFacts.

(** ** More on the invoker *)

Module InvokerMore.

Import Invoker Scanner Notions.

(** *** Trimming *)

Lemma trimStart_white x : blank x = true -> trimStart x = [].
Proof.
  unfold blank. induction x as [| c x IH]; simpl; [reflexivity |].
  intros H. apply andb_true_iff in H as [Hc Hx]. rewrite Hc. apply IH, Hx.
Qed.

Lemma trimStart_nil x : trimStart x = [] -> blank x = true.
Proof.
  unfold blank. induction x as [| c x IH]; simpl; [reflexivity |].
  destruct (isWhite c); [exact IH | discriminate].
Qed.

Lemma trimStart_clean x : clean_start (trimStart x).
Proof.
  induction x as [| c x IH]; simpl; [exact I |].
  destruct (isWhite c) eqn:Hc; [exact IH | exact Hc].
Qed.

Lemma trimStart_fixed x : clean_start x -> trimStart x = x.
Proof. destruct x as [| c x]; simpl; [reflexivity |]. now intros ->. Qed.

Lemma trimStart_split x :
  exists pre, blank pre = true /\ x = pre ++ trimStart x.
Proof.
  induction x as [| c x (pre & Hpre & Hx)]; simpl.
  - exists []. split; reflexivity.
  - destruct (isWhite c) eqn:Hc.
    + exists (c :: pre). unfold blank in *. simpl. rewrite Hc, Hpre.
      split; [reflexivity | now f_equal].
    + exists []. split; reflexivity.
Qed.

Lemma blank_rev x : blank (rev x) = blank x.
Proof.
  unfold blank. induction x as [| c x IH]; simpl; [reflexivity |].
  rewrite forallb_app, IH. simpl. rewrite andb_true_r. apply andb_comm.
Qed.

Lemma blank_clean_start x : clean_start x -> blank x = true -> x = [].
Proof.
  destruct x as [| c x]; simpl; [reflexivity |].
  unfold blank. simpl. intros ->. discriminate.
Qed.

Lemma trim_blank x : trim x = [] <-> blank x = true.
Proof.
  unfold trim. split.
  - intros H. apply (f_equal (@rev ascii)) in H. rewrite rev_involutive in H.
    simpl in H. apply trimStart_nil in H. rewrite blank_rev in H.
    pose proof (blank_clean_start _ (trimStart_clean x) H) as Hx.
    apply trimStart_nil, Hx.
  - intros H. rewrite (trimStart_white x H). reflexivity.
Qed.

Lemma trim_clean_start x : clean_start (trim x).
Proof.
  unfold trim.
  destruct (trimStart_split (rev (trimStart x))) as (pre & Hpre & Hx).
  apply (f_equal (@rev ascii)) in Hx. rewrite rev_involutive, rev_app_distr in Hx.
  pose proof (trimStart_clean x) as Hc. rewrite Hx in Hc.
  destruct (rev (trimStart (rev (trimStart x)))) as [| c z] eqn:Hz;
    [exact I |].
  exact Hc.
Qed.

Lemma trim_clean_end x : clean_start (rev (trim x)).
Proof. unfold trim. rewrite rev_involutive. apply trimStart_clean. Qed.

(** [trim] does nothing to a string it has already trimmed. *)
Lemma trim_trim x : trim (trim x) = trim x.
Proof.
  unfold trim at 1.
  rewrite (trimStart_fixed _ (trim_clean_start x)).
  rewrite (trimStart_fixed _ (trim_clean_end x)).
  apply rev_involutive.
Qed.

Lemma finalApiKey_chosen env apiKey :
  finalApiKey env apiKey = trim (chosenKey apiKey env).
Proof. reflexivity. Qed.

(** *** The credential check *)

(** X1.  When the key that is passed, or failing that the environment's key,
    consists of white space only (or neither is set), [analyzeImage] and
    [analyzeText] throw the missing-key error whatever the collaborator and
    [JSON.parse] would do: neither is consulted.  With any other key the
    outcome is the treatment of the one response the collaborator gives to
    the request. *)
Theorem blank_key_is_refused
    JSON_parse env generateContent base64 mime query apiKey persona :
  (blank (chosenKey apiKey env) = true ->
   analyzeImage JSON_parse env generateContent base64 mime apiKey persona
   = Throw missingKey
   /\ analyzeText JSON_parse env generateContent query apiKey persona
      = Throw missingKey)
  /\ (blank (chosenKey apiKey env) = false ->
      analyzeImage JSON_parse env generateContent base64 mime apiKey persona
      = parse_response JSON_parse
          (generateContent (imageRequest base64 mime persona))).
Proof.
  unfold analyzeImage, analyzeText. rewrite finalApiKey_chosen. split.
  - intros H. apply trim_blank in H. rewrite H. split; reflexivity.
  - intros H. destruct (trim (chosenKey apiKey env)) as [| c k] eqn:Hk;
      [| reflexivity].
    apply trim_blank in Hk. congruence.
Qed.

Lemma blank_key_is_refused_witness :
  analyzeImage parseJSON (Some (s "AIza-from-env")) (answering (s "{}"))
    (s "AAAA") (s "image/jpeg") (Some (s "   ")) None
  = Throw missingKey.
Proof.
  apply (proj1 (proj1 (@blank_key_is_refused parseJSON
                         (Some (s "AIza-from-env")) (answering (s "{}"))
                         (s "AAAA") (s "image/jpeg") (s "sugar")
                         (Some (s "   ")) None) eq_refl)).
Defined.

(** *** Classifying failures *)

Lemma quota_exceeded_plain : quotaMarker (error_text (Error "QUOTA_EXCEEDED")) = false.
Proof. vm_compute. reflexivity. Qed.

Lemma handleGeminiError_marked e :
  quotaMarker (error_text e) = true ->
  handleGeminiError e = Error "QUOTA_EXCEEDED".
Proof. unfold handleGeminiError, quotaMarker. now intros ->. Qed.

Lemma handleGeminiError_plain e :
  quotaMarker (error_text e) = false -> handleGeminiError e = e.
Proof. unfold handleGeminiError, quotaMarker. now intros ->. Qed.

(** X2.  The scan loop takes a failure that went through
    [handleGeminiError] for a quota failure exactly when the text of the
    original error contains 429, quota or RESOURCE_EXHAUSTED, or the
    original error already had the message QUOTA_EXCEEDED; every other
    error is thrown on as it came.  Passing an error through the handler a
    second time changes nothing. *)
Theorem quota_classification e :
  isQuota (handleGeminiError e) = quotaMarker (error_text e) || isQuota e
  /\ (isQuota (handleGeminiError e) = false -> handleGeminiError e = e)
  /\ handleGeminiError (handleGeminiError e) = handleGeminiError e.
Proof.
  destruct (quotaMarker (error_text e)) eqn:Hm.
  - rewrite (handleGeminiError_marked e Hm).
    split; [reflexivity |]. split; [discriminate |].
    apply handleGeminiError_plain, quota_exceeded_plain.
  - rewrite (handleGeminiError_plain e Hm).
    split; [reflexivity |]. split; [reflexivity |].
    apply handleGeminiError_plain, Hm.
Qed.

Lemma quota_classification_witness :
  handleGeminiError (Error "fetch failed") = Error "fetch failed".
Proof.
  apply (proj1 (proj2 (quota_classification (Error "fetch failed")))).
  reflexivity.
Defined.

(** X3.  From the collaborator to the scan loop.  With a usable key, when
    the collaborator fails with an error whose text contains 429, quota or
    RESOURCE_EXHAUSTED (or whose message is QUOTA_EXCEEDED), the call the
    scan loop awaits makes it enter the cooldown: the flag is raised, the
    last-run time is 10000 ms after the time of settling and the
    high-traffic message is stored.  Any other failure of the collaborator
    leaves the scanner as it was, [isAnalyzing] apart. *)
Theorem collaborator_failure_and_cooldown
    JSON_parse env generateContent inv e t st :
  blank (inv_apiKey inv) = false ->
  (forall request, generateContent request = Throw e) ->
  let st' := resolve (invoke JSON_parse env generateContent inv) t st in
  (quotaMarker (error_text e) || isQuota e = true ->
   isCoolingDown st' = true
   /\ lastAnalysisTimeRef st' = (t + 10000)%Z
   /\ error st' = Some highTraffic
   /\ result st' = result st)
  /\ (quotaMarker (error_text e) || isQuota e = false ->
      st' = setIsAnalyzing false st).
Proof.
  intros Hkey Hgen st'.
  assert (Hinv : invoke JSON_parse env generateContent inv
                 = Throw (handleGeminiError e)).
  { unfold invoke, analyzeImage. rewrite finalApiKey_chosen.
    assert (Hc : chosenKey (Some (inv_apiKey inv)) env = inv_apiKey inv).
    { unfold chosenKey, or_else. destruct (inv_apiKey inv); [discriminate |].
      reflexivity. }
    rewrite Hc. destruct (trim (inv_apiKey inv)) eqn:Ht.
    - apply trim_blank in Ht. congruence.
    - rewrite Hgen. reflexivity. }
  unfold st'. rewrite Hinv. unfold resolve.
  rewrite (proj1 (quota_classification e)).
  split; intros ->; repeat split.
Qed.

Lemma collaborator_failure_and_cooldown_witness :
  isCoolingDown
    (resolve (invoke parseJSON None
                (fun _ => Throw (Error "429 Too Many Requests"))
                (issued key ready streaming))
       8000 (setIsAnalyzing true streaming))
  = true.
Proof.
  apply (proj1 (@collaborator_failure_and_cooldown parseJSON None
                  (fun _ => Throw (Error "429 Too Many Requests"))
                  (issued key ready streaming)
                  (Error "429 Too Many Requests") 8000
                  (setIsAnalyzing true streaming)
                  eq_refl (fun _ => eq_refl))).
  reflexivity.
Defined.

End InvokerMore.

(** ** More on the scan loop *)

Module ScanLoopMore.

Import Invoker Scanner Notions ScanLoop.

(** The forms the result of a tick can take. *)
Lemma tick_shape apiKey now frame st :
  tick apiKey now frame st = (st, None)
  \/ exists st1,
       isCoolingDown st1 = false
       /\ (st1 = st \/ (isCoolingDown st = true /\ st1 = cleared st))
       /\ (tick apiKey now frame st = (st1, None)
           \/ (isAnalyzing st = false
               /\ (tick apiKey now frame st
                   = (setIsAnalyzing false (setIsAnalyzing true st1), None)
                   \/ tick apiKey now frame st
                      = (setIsAnalyzing true st1,
                         Some (issued apiKey frame st))))).
Proof.
  unfold tick, cooldown_check.
  destruct (scanning apiKey st); simpl; [| now left].
  destruct (isCoolingDown st) eqn:Hc.
  - destruct (now >? lastAnalysisTimeRef st + 3000)%Z; simpl; [| now left].
    right. exists (cleared st). split; [reflexivity |].
    split; [right; split; reflexivity |].
    destruct (isAnalyzing st); simpl; [now left |].
    destruct (now - lastAnalysisTimeRef st <? 3000)%Z; [now left |].
    destruct (refsPresent frame); simpl; [| now left].
    destruct (enoughData frame); simpl; [| now left].
    destruct (ctxPresent frame); simpl; right; split; auto.
  - simpl. right. exists st. split; [exact Hc |]. split; [now left |].
    destruct (isAnalyzing st); simpl; [now left |].
    destruct (now - lastAnalysisTimeRef st <? 3000)%Z; [now left |].
    destruct (refsPresent frame); simpl; [| now left].
    destruct (enoughData frame); simpl; [| now left].
    destruct (ctxPresent frame); simpl; right; split; auto.
Qed.

(** Whether a tick issues a call. *)
Lemma tick_decision apiKey now frame st :
  snd (tick apiKey now frame st)
  = if may_issue apiKey now frame st
    then Some (issued apiKey frame st) else None.
Proof.
  unfold may_issue, usable, tick, cooldown_check.
  destruct (scanning apiKey st); simpl; [| reflexivity].
  destruct (isCoolingDown st).
  - destruct (Z.gtb_spec now (lastAnalysisTimeRef st + 3000));
      destruct (Z.ltb_spec (lastAnalysisTimeRef st + 3000) now);
      try lia; simpl.
    + destruct (isAnalyzing st); simpl; [reflexivity |].
      destruct (Z.ltb_spec (now - lastAnalysisTimeRef st) 3000); [lia |].
      destruct (refsPresent frame), (enoughData frame), (ctxPresent frame);
        reflexivity.
    + rewrite !andb_false_r. reflexivity.
  - simpl. destruct (isAnalyzing st); simpl; [reflexivity |].
    destruct (Z.ltb_spec (now - lastAnalysisTimeRef st) 3000);
      destruct (Z.leb_spec (lastAnalysisTimeRef st + 3000) now);
      try lia; simpl.
    + rewrite !andb_false_r. reflexivity.
    + destruct (refsPresent frame), (enoughData frame), (ctxPresent frame);
        reflexivity.
Qed.

(** What a tick leaves alone. *)
Lemma tick_frame apiKey now frame st :
  let st' := fst (tick apiKey now frame st) in
  result st' = result st
  /\ lastAnalysisTimeRef st' = lastAnalysisTimeRef st
  /\ isStreaming st' = isStreaming st
  /\ activePersonaId st' = activePersonaId st
  /\ activeSubOptionId st' = activeSubOptionId st
  /\ pendingPersonaId st' = pendingPersonaId st
  /\ activeVillain st' = activeVillain st
  /\ isPlayingAudio st' = isPlayingAudio st
  /\ (isCoolingDown st' = true -> isCoolingDown st = true)
  /\ (error st' = error st \/ error st' = None).
Proof.
  destruct (tick_shape apiKey now frame st)
    as [-> | (st1 & Hc1 & [-> | [Hc ->]] & [-> | [Ha [-> | ->]]])];
    simpl; repeat split; auto; try congruence.
Qed.

(** X4.  The interval callback issues a call exactly when the scanner is
    scanning (streaming, with a key, no overlay, no tooltip, no audio), no
    call is being analyzed, the camera frame is usable, and the clock is at
    least 3000 ms past the last-run time, or strictly more than that while
    the cooling-down flag is up.  Whatever it decides, the tick leaves the
    published result, the last-run time and the persona context alone; it
    never raises the cooling-down flag, and the only thing it does to the
    error is to clear it. *)
Theorem call_issued_exactly_when apiKey now frame st :
  snd (tick apiKey now frame st)
  = (if may_issue apiKey now frame st
     then Some (issued apiKey frame st) else None)
  /\ (let st' := fst (tick apiKey now frame st) in
      result st' = result st
      /\ lastAnalysisTimeRef st' = lastAnalysisTimeRef st
      /\ activePersonaId st' = activePersonaId st
      /\ activeSubOptionId st' = activeSubOptionId st
      /\ (isCoolingDown st' = true -> isCoolingDown st = true)
      /\ (error st' = error st \/ error st' = None)).
Proof.
  split; [apply tick_decision |].
  pose proof (tick_frame apiKey now frame st) as H. cbv zeta in *. tauto.
Qed.

Lemma call_issued_exactly_when_witness :
  snd (tick key 9000 ready
         (resolve (Throw quotaError) 0 (setIsAnalyzing true streaming)))
  = None
  /\ isCoolingDown
       (resolve (Throw quotaError) 0 (setIsAnalyzing true streaming))
     = true.
Proof.
  destruct (call_issued_exactly_when key 9000 ready
              (resolve (Throw quotaError) 0 (setIsAnalyzing true streaming)))
    as (Hsnd & _ & _ & _ & _ & Hup & _).
  split; [exact Hsnd | exact (Hup eq_refl)].
Defined.

(** *** States the events can lead to *)

Lemma step_well_formed apiKey e w :
  well_formed w -> well_formed (step apiKey e w).
Proof.
  intros (Hs & Ha & Hc & He).
  split; [apply step_single_flight, Hs |].
  destruct e; simpl; try (repeat split; assumption).
  - destruct (tick apiKey now frame (ui w)) as [st o] eqn:Ht.
    assert (Hst : st = fst (tick apiKey now frame (ui w))) by now rewrite Ht.
    clear Ht. simpl.
    destruct (tick_shape apiKey now frame (ui w))
      as [Heq | (st1 & Hc1 & Hst1 & Hcase)].
    { rewrite Heq in Hst. simpl in Hst. subst st. repeat split; assumption. }
    assert (He1 : error st1 = None).
    { destruct Hst1 as [-> | [_ ->]]; [apply He, Hc1 | reflexivity]. }
    assert (Ha1 : isAnalyzing st1 = isAnalyzing (ui w)).
    { destruct Hst1 as [-> | [_ ->]]; reflexivity. }
    destruct Hcase as [Heq | [Hidle [Heq | Heq]]];
      rewrite Heq in Hst; simpl in Hst; subst st; simpl;
      repeat split; auto; try congruence.
  - destruct (nth_error (inflight w) k) as [inv |] eqn:Hk;
      [| repeat split; assumption].
    assert (Hbusy : isAnalyzing (ui w) = true).
    { unfold single_flight in Hs. destruct (isAnalyzing (ui w)); [reflexivity |].
      destruct (inflight w); [destruct k |]; discriminate. }
    specialize (Ha Hbusy). specialize (He Ha).
    simpl. unfold resolve.
    destruct outcome as [data | err]; simpl; [repeat split; auto; congruence |].
    destruct (isQuota err); simpl; repeat split; auto; congruence.
  - unfold handlePersonaClick.
    destruct (opt_eqb (activePersonaId (ui w)) personaId); simpl;
      repeat split; assumption.
  - unfold confirmSubOption.
    destruct (truthy (pendingPersonaId (ui w))); simpl;
      repeat split; assumption.
  - unfold handlePlayAudio. destruct text0; simpl; repeat split; assumption.
Qed.

Lemma run_well_formed apiKey events : forall w,
  well_formed w -> well_formed (run apiKey events w).
Proof.
  unfold run. induction events as [| e events IH]; intros w Hw; simpl;
    [exact Hw |].
  apply IH, step_well_formed, Hw.
Qed.

Lemma start_well_formed : well_formed start.
Proof. repeat split; try reflexivity; discriminate. Qed.

(** X5.  Whatever events occur, the scanner is never cooling down while a
    call is being analyzed, and the stored error is the high-traffic
    message exactly while the cooling-down flag is up and absent otherwise:
    the scan loop stores no other error, so a failure that is not a quota
    failure is never shown. *)
Theorem cooldown_and_error_go_together apiKey events :
  let st := ui (run apiKey events start) in
  (isAnalyzing st = true -> isCoolingDown st = false)
  /\ error st = (if isCoolingDown st then Some highTraffic else None).
Proof.
  intros st.
  destruct (run_well_formed apiKey events start start_well_formed)
    as (_ & Ha & Hc & He).
  fold st in Ha, Hc, He. split; [exact Ha |].
  destruct (isCoolingDown st); auto.
Qed.

Lemma cooldown_and_error_go_together_witness :
  isCoolingDown
    (ui (run key [CameraStarted; Tick 5000 ready] start)) = false.
Proof.
  apply (proj1 (cooldown_and_error_go_together key
                  [CameraStarted; Tick 5000 ready])).
  reflexivity.
Defined.

(** *** After an attempt *)

Lemma may_issue_true apiKey now frame st :
  may_issue apiKey now frame st = true ->
  scanning apiKey st = true /\ isAnalyzing st = false /\ usable frame = true
  /\ (lastAnalysisTimeRef st + 3000 <= now)%Z.
Proof.
  unfold may_issue. rewrite !andb_true_iff, negb_true_iff.
  intros [[[Hs Ha] Hf] Ht]. repeat split; try assumption.
  destruct (isCoolingDown st); [apply Z.ltb_lt in Ht | apply Z.leb_le in Ht];
    lia.
Qed.

Lemma scanning_same apiKey st st' :
  isStreaming st' = isStreaming st ->
  pendingPersonaId st' = pendingPersonaId st ->
  activeVillain st' = activeVillain st ->
  isPlayingAudio st' = isPlayingAudio st ->
  scanning apiKey st' = scanning apiKey st.
Proof. unfold scanning. now intros -> -> -> ->. Qed.

(** X6.  A failure that is not a quota failure does not count for the
    spacing: once the failed call has settled, any tick at or after the
    time of the tick that issued it issues a call again, provided the
    camera frame is usable.  With the 1000 ms interval the attempt is thus
    repeated every second for as long as it fails. *)
Theorem failed_attempt_is_retried_at_once
    apiKey now frame before st inv err t now' frame' :
  tick apiKey now frame before = (st, Some inv) ->
  isQuota err = false ->
  (now <= now')%Z ->
  usable frame' = true ->
  let st' := resolve (Throw err) t st in
  tick apiKey now' frame' st'
  = (setIsAnalyzing true st', Some (issued apiKey frame' st')).
Proof.
  intros Ht Hq Hnow Hf st'.
  pose proof (tick_decision apiKey now frame before) as Hd.
  pose proof (tick_frame apiKey now frame before) as Hfr.
  rewrite Ht in Hd, Hfr. simpl in Hd, Hfr.
  destruct (may_issue apiKey now frame before) eqn:Hm; [| discriminate].
  apply may_issue_true in Hm as (Hs & _ & _ & Hlast).
  destruct Hfr as (_ & Hl & Hstr & _ & _ & Hp & Hv & Hau & _).
  apply tick_issue_inv in Ht as (_ & _ & Hc & _).
  assert (Hst' : st' = setIsAnalyzing false st)
    by (unfold st', resolve; rewrite Hq; reflexivity).
  clearbody st'. subst st'.
  apply tick_starts; simpl; try assumption.
  - rewrite <- Hs. apply scanning_same; assumption.
  - reflexivity.
  - lia.
Qed.

Lemma failed_attempt_is_retried_at_once_witness :
  snd (tick key 6000 ready
         (resolve (Throw networkError) 5400 (fst (tick key 5000 ready streaming))))
  = Some (issued key ready streaming).
Proof.
  rewrite (@failed_attempt_is_retried_at_once key 5000 ready streaming
             (fst (tick key 5000 ready streaming))
             (issued key ready streaming) networkError 5400 6000 ready
             eq_refl eq_refl ltac:(vm_compute; discriminate) eq_refl).
  reflexivity.
Defined.

(** X7.  After a success the spacing counts from the moment the response
    arrived, not from the tick that issued the call: outside a cooldown,
    every tick less than 3000 ms after the time of settling returns at
    once, and a tick at or after that issues a call when the scanner is
    scanning and the camera frame is usable. *)
Theorem spacing_counts_from_settling apiKey st data t :
  isCoolingDown st = false ->
  let st' := resolve (Return data) t st in
  (forall now frame, (now < t + 3000)%Z ->
     tick apiKey now frame st' = (st', None))
  /\ (forall now frame, (t + 3000 <= now)%Z ->
        scanning apiKey st' = true -> usable frame = true ->
        tick apiKey now frame st'
        = (setIsAnalyzing true st', Some (issued apiKey frame st'))).
Proof.
  intros Hc st'. split.
  - intros now frame Hnow. apply tick_spacing_skips; [exact Hc |].
    unfold st'. simpl. lia.
  - intros now frame Hnow Hs Hf. apply tick_starts; try assumption;
      unfold st'; simpl; try reflexivity; lia.
Qed.

Lemma spacing_counts_from_settling_witness :
  tick key 9500 ready
    (resolve (Return (JObj [])) 7000 (fst (tick key 5000 ready streaming)))
  = (resolve (Return (JObj [])) 7000 (fst (tick key 5000 ready streaming)),
     None).
Proof.
  apply (proj1 (@spacing_counts_from_settling key
                  (fst (tick key 5000 ready streaming)) (JObj []) 7000
                  eq_refl)).
  vm_compute. reflexivity.
Defined.

(** *** Runs that never issue a call *)

Lemma tick_not_scanning apiKey now frame st :
  scanning apiKey st = false -> tick apiKey now frame st = (st, None).
Proof. unfold tick. now intros ->. Qed.

Lemma scanning_no_key st : scanning [] st = false.
Proof. unfold scanning. simpl. now rewrite andb_false_r. Qed.

Lemma scanning_no_stream apiKey st :
  isStreaming st = false -> scanning apiKey st = false.
Proof. unfold scanning. now intros ->. Qed.

Lemma run_no_key events : forall w,
  inflight w = [] -> inflight (run [] events w) = [].
Proof.
  unfold run. induction events as [| e events IH]; intros w Hw; simpl;
    [exact Hw |].
  apply IH. destruct e; simpl; try exact Hw.
  - rewrite tick_not_scanning by apply scanning_no_key. exact Hw.
  - rewrite Hw. destruct k; exact Hw.
Qed.

Lemma run_no_camera apiKey events : forall w,
  existsb is_camera_start events = false ->
  isStreaming (ui w) = false -> inflight w = [] ->
  inflight (run apiKey events w) = [].
Proof.
  unfold run. induction events as [| e events IH]; intros w Hev Hs Hw; simpl;
    [exact Hw |].
  simpl in Hev. apply orb_false_iff in Hev as [He Hev].
  apply IH; [exact Hev | |]; destruct e; simpl; try assumption;
    try discriminate.
  - rewrite tick_not_scanning by (apply scanning_no_stream, Hs). exact Hs.
  - rewrite Hw. destruct k; exact Hs.
  - unfold handlePersonaClick.
    destruct (opt_eqb (activePersonaId (ui w)) personaId); exact Hs.
  - unfold confirmSubOption.
    destruct (truthy (pendingPersonaId (ui w))); exact Hs.
  - unfold handlePlayAudio. destruct text0; exact Hs.
  - rewrite tick_not_scanning by (apply scanning_no_stream, Hs). exact Hw.
  - rewrite Hw. destruct k; exact Hw.
Qed.

(** X8.  With an empty [apiKey] prop no call is ever issued, whatever
    events occur; and with any key no call is issued in a run in which the
    camera never started. *)
Theorem no_call_without_key_or_camera :
  (forall events, inflight (run [] events start) = [])
  /\ (forall apiKey events,
        existsb is_camera_start events = false ->
        inflight (run apiKey events start) = []).
Proof.
  split.
  - intros events. now apply run_no_key.
  - intros apiKey events Hev. now apply run_no_camera.
Qed.

Lemma no_call_without_key_or_camera_witness :
  inflight (run key [Tick 5000 ready; PersonaClick (s "kids");
                     CloseOverlay; Tick 9000 ready] start) = [].
Proof.
  apply (proj2 no_call_without_key_or_camera). reflexivity.
Defined.

(** *** The published result *)

Lemma step_result apiKey e w :
  result (ui (step apiKey e w)) = result (ui w)
  \/ result (ui (step apiKey e w)) = None
  \/ exists data, In data (settled_data [e])
                  /\ result (ui (step apiKey e w)) = Some data.
Proof.
  destruct e; simpl; auto.
  - destruct (tick apiKey now frame (ui w)) as [st o] eqn:Ht. simpl.
    pose proof (tick_frame apiKey now frame (ui w)) as Hf.
    rewrite Ht in Hf. simpl in Hf. left. tauto.
  - destruct (nth_error (inflight w) k); [| auto]. simpl.
    destruct outcome as [data | err]; simpl.
    + right. right. exists data. auto.
    + left. destruct (isQuota err); reflexivity.
  - unfold handlePersonaClick.
    destruct (opt_eqb (activePersonaId (ui w)) personaId); simpl; auto.
  - unfold confirmSubOption.
    destruct (truthy (pendingPersonaId (ui w))); simpl; auto.
  - unfold handlePlayAudio. destruct text0; simpl; auto.
Qed.

Lemma settled_data_cons e events :
  settled_data (e :: events) = settled_data [e] ++ settled_data events.
Proof. unfold settled_data. simpl. now rewrite app_nil_r. Qed.

(** X9.  The published result is never made up: after any events it is
    absent, or the result that was published before them, or the data of a
    call that settled successfully during them. *)
Theorem published_result_was_received apiKey events : forall w data,
  result (ui (run apiKey events w)) = Some data ->
  result (ui w) = Some data \/ In data (settled_data events).
Proof.
  unfold run. induction events as [| e events IH]; intros w data;
    [simpl; auto |].
  cbn [fold_left]. intros H. rewrite settled_data_cons.
  destruct (IH _ _ H) as [Hstep | Hin]; [| right; apply in_or_app; auto].
  destruct (step_result apiKey e w) as [Heq | [Hnone | (d & Hd & Heq)]].
  - left. congruence.
  - congruence.
  - right. apply in_or_app. left. congruence.
Qed.

Lemma published_result_was_received_witness :
  result (ui start) = Some (JObj [])
  \/ In (JObj [])
       (settled_data [CameraStarted; Tick 5000 ready;
                      Resolve 0 (Return (JObj [])) 6000]).
Proof.
  apply (@published_result_was_received key
           [CameraStarted; Tick 5000 ready; Resolve 0 (Return (JObj [])) 6000]
           start (JObj [])).
  reflexivity.
Defined.

(** *** Choosing a persona *)

Lemma personaPrompt_ids st pid sid :
  activePersonaId st = Some pid -> activeSubOptionId st = Some sid ->
  pid <> [] -> sid <> [] ->
  personaPrompt st = promptFor pid sid.
Proof.
  unfold personaPrompt, promptFor. intros -> -> Hp Hs.
  destruct pid; [now elim Hp |]. destruct sid; [now elim Hs |]. reflexivity.
Qed.

(** X10.  Every sub-option the overlay offers leads to its own prompt: for
    each persona of the catalogue and each of its sub-options, clicking the
    persona (when it is not the active one) and confirming the sub-option
    clears the published result, closes the overlay and makes the persona
    prompt of the next call the persona's base prompt, the words SPECIFIC
    CONTEXT and the sub-option's prompt.  Clicking the persona once more
    deselects it: no persona prompt, no result. *)
Theorem offered_option_resolves p so st :
  In p PERSONAS -> In so (subOptions p) ->
  opt_eqb (activePersonaId st) (id p) = false ->
  let chosen := confirmSubOption (sub_id so) (handlePersonaClick (id p) st) in
  personaPrompt chosen
  = Some (basePrompt p ++ s " SPECIFIC CONTEXT: " ++ prompt so)
  /\ result chosen = None
  /\ pendingPersonaId chosen = None
  /\ personaPrompt (handlePersonaClick (id p) chosen) = None
  /\ activePersonaId (handlePersonaClick (id p) chosen) = None
  /\ result (handlePersonaClick (id p) chosen) = None.
Proof.
  intros Hp Hso Hother chosen.
  assert (Hids : id p <> [] /\ sub_id so <> []
                 /\ promptFor (id p) (sub_id so)
                    = Some (basePrompt p ++ s " SPECIFIC CONTEXT: " ++ prompt so)).
  { simpl in Hp.
    repeat (destruct Hp as [<- | Hp];
            [simpl in Hso;
             repeat (destruct Hso as [<- | Hso];
                     [repeat split; try discriminate; vm_compute; reflexivity |]);
             contradiction |]).
    contradiction. }
  destruct Hids as (Hpid & Hsid & Hprompt).
  assert (Hchosen : chosen
                    = setResult None
                        (setPendingPersonaId None
                           (setActiveSubOptionId (Some (sub_id so))
                              (setActivePersonaId (Some (id p))
                                 (setPendingPersonaId (Some (id p)) st))))).
  { unfold chosen, handlePersonaClick, confirmSubOption. rewrite Hother.
    simpl. destruct (id p); [now elim Hpid | reflexivity]. }
  assert (Hback : opt_eqb (activePersonaId chosen) (id p) = true).
  { rewrite Hchosen. simpl. unfold str_eqb.
    destruct (list_eq_dec ascii_dec (id p) (id p)); [reflexivity | now elim n]. }
  split.
  - rewrite <- Hprompt. apply personaPrompt_ids; try assumption;
      rewrite Hchosen; reflexivity.
  - split; [rewrite Hchosen; reflexivity |].
    split; [rewrite Hchosen; reflexivity |].
    unfold handlePersonaClick. rewrite Hback. repeat split.
Qed.

Lemma offered_option_resolves_witness :
  personaPrompt
    (confirmSubOption (s "gluten") (handlePersonaClick (s "allergies") streaming))
  = Some (s "User has severe food allergies. FLAG WARNINGS AGGRESSIVELY. SPECIFIC CONTEXT: Flag Wheat, Barley, Rye, Malt, and potential cross-contamination.").
Proof.
  apply (proj1 (@offered_option_resolves
                  {| id := s "allergies";
                     basePrompt := s "User has severe food allergies. FLAG WARNINGS AGGRESSIVELY.";
                     subOptions :=
                       [ sub "gluten" "Flag Wheat, Barley, Rye, Malt, and potential cross-contamination.";
                         sub "dairy" "Flag Milk, Whey, Casein, Cheese, and Butter.";
                         sub "nuts" "Flag Peanuts, Almonds, Walnuts, Cashews, and processing facilities.";
                         {| sub_id := s "shellfish";
                            prompt := s "Flag Shrimp, Crab, Lobster, and vague " ++ [quote]
                                      ++ s "fish" ++ [quote] ++ s " ingredients." |};
                         sub "soy" "Flag Soy lecithin, Tofu, Edamame, and TVP." ] |}
                  (sub "gluten" "Flag Wheat, Barley, Rye, Malt, and potential cross-contamination.")
                  streaming
                  ltac:(right; left; reflexivity) ltac:(left; reflexivity)
                  eq_refl)).
Defined.

End ScanLoopMore.

(** ** More on the term matcher *)

Module MatcherMore.

Import TermMatcher Notions MatcherFacts.

Lemma exec_sticky_all_fail alts rest :
  (forall a, In a alts -> prefix_ci a rest = false) ->
  exec_sticky alts rest = None.
Proof.
  induction alts as [| a alts IH]; intros H; simpl; [reflexivity |].
  rewrite (H a (or_introl eq_refl)). apply IH. intros b Hb. apply H. now right.
Qed.

(** *** A text in which no term occurs *)

Lemma split_loop_no_match alts rest : forall pending,
  (forall j, exec_sticky alts (skipn j rest) = None) ->
  split_loop alts pending rest = [pending ++ rest].
Proof.
  induction rest as [| c rest IH]; intros pending H.
  - simp split_loop. now rewrite app_nil_r.
  - rewrite split_loop_cons. pose proof (H 0) as H0. cbn [skipn] in H0.
    rewrite H0, IH.
    + now rewrite <- app_assoc.
    + intros j. apply (H (S j)).
Qed.

(** X11.  When no term name occurs anywhere in the text, compared without
    case, the text is rendered as it is: the matcher yields the one plain
    span that holds the whole text. *)
Theorem text_without_terms_is_plain text terms :
  (forall v i, In v terms -> ~ occurs_at (name v) text i) ->
  matcher text terms = [Plain text].
Proof.
  intros Hno. destruct terms as [| v0 terms]; [reflexivity |].
  rewrite matcher_cons.
  assert (Hexec : forall j,
             exec_sticky (map name (sortedVillains (v0 :: terms)))
                         (skipn j text) = None).
  { intros j. apply exec_sticky_all_fail. intros a Ha.
    apply (proj1 (names_sorted_in _ _)) in Ha.
    apply in_map_iff in Ha as (v & <- & Hv).
    specialize (Hno v j Hv). unfold occurs_at in Hno.
    destruct (prefix_ci (name v) (skipn j text)); [now elim Hno | reflexivity]. }
  assert (Hparts : split (map name (sortedVillains (v0 :: terms))) text
                   = [text]).
  { destruct text as [| c text]; cbn [split].
    - pose proof (Hexec 0) as H0. cbn [skipn] in H0. now rewrite H0.
    - now rewrite split_loop_no_match. }
  rewrite Hparts. cbn [map]. unfold render_part.
  rewrite matchedVillain_original, matchedVillain_none; [reflexivity |].
  intros a Ha Hci. apply in_map_iff in Ha as (v & <- & Hv).
  apply (Hno v 0 Hv). unfold occurs_at. cbn [skipn].
  rewrite <- (app_nil_r text). apply prefix_ci_app, Hci.
Qed.

Lemma text_without_terms_is_plain_witness :
  matcher (s "Whole oats and water")
    [term "Maltodextrin"; term "Corn Syrup"]
  = [Plain (s "Whole oats and water")].
Proof.
  apply text_without_terms_is_plain.
  intros v i [<- | [<- | []]]; unfold occurs_at;
    do 21 (destruct i as [| i]; [vm_compute; discriminate |]);
    rewrite skipn_all2 by (vm_compute; lia); discriminate.
Defined.

(** *** A term with an empty name *)

Lemma split_loop_shreds alts n :
  In [] alts ->
  forall pending rest part,
    length rest <= n -> length pending <= 1 ->
    In part (split_loop alts pending rest) ->
    length part <= 1 \/ exists b, In b alts /\ ci_eq b part.
Proof.
  intros Hempty. induction n as [| n IH];
    intros pending [| c rest] part Hlen Hp Hin; simpl in Hlen; try lia.
  1-2: simp split_loop in Hin; destruct Hin as [<- | []]; now left.
  rewrite split_loop_cons in Hin.
  destruct (exec_sticky alts (c :: rest)) as [[| k] |] eqn:He.
  - destruct pending as [| p ps].
    + apply (IH [c] rest part); simpl; try lia; assumption.
    + destruct Hin as [<- | [<- | Hin]]; [now left | left; simpl; lia |].
      apply (IH [c] rest part); simpl; try lia; assumption.
  - destruct Hin as [<- | [<- | Hin]]; [now left | |].
    + right. destruct (exec_sticky_some _ _ _ He) as (b & Hb & Hbl & Hbp).
      exists b. split; [exact Hb |]. rewrite <- Hbl.
      apply prefix_ci_firstn, Hbp.
    + apply (IH [] (skipn k rest) part); simpl; try lia; try assumption.
      pose proof (length_skipn k rest). lia.
  - discriminate (exec_sticky_none _ _ [] He Hempty).
Qed.

(** X12.  A term with an empty name shreds the text: as soon as one term
    has an empty name, no plain span of the result is longer than one
    character, whatever the text and the other terms are. *)
Theorem empty_name_shreds_the_text text terms sp :
  (exists v, In v terms /\ name v = []) ->
  In sp (matcher text terms) -> is_match sp = false ->
  length (span_text sp) <= 1.
Proof.
  intros (v & Hv & Hname) Hin Hplain.
  destruct terms as [| v0 terms]; [contradiction |].
  rewrite matcher_cons in Hin.
  apply in_map_iff in Hin as (part & <- & Hpart).
  rewrite render_part_text.
  assert (Hempty : In [] (map name (sortedVillains (v0 :: terms)))).
  { rewrite <- Hname. apply (proj2 (names_sorted_in _ _)), in_map, Hv. }
  assert (Hcase : length part <= 1
                  \/ exists b, In b (map name (sortedVillains (v0 :: terms)))
                               /\ ci_eq b part).
  { destruct text as [| c text]; cbn [split] in Hpart.
    - destruct (exec_sticky _ []); [contradiction |].
      destruct Hpart as [<- | []]. left. simpl. lia.
    - apply (split_loop_shreds _ (S (length text)) Hempty [] (c :: text));
        simpl; try lia; assumption. }
  destruct Hcase as [Hshort | Hcap]; [exact Hshort |].
  destruct (render_capture _ _ Hcap) as (w & Hw & _).
  rewrite Hw in Hplain. discriminate.
Qed.

Lemma empty_name_shreds_the_text_witness :
  length (span_text (Plain (s "b"))) <= 1.
Proof.
  apply (@empty_name_shreds_the_text (s "abc")
           [term "Sugar"; {| name := []; explanation := s "?" |}]
           (Plain (s "b"))).
  - exists {| name := []; explanation := s "?" |}.
    split; [right; left |]; reflexivity.
  - vm_compute. right. right. left. reflexivity.
  - reflexivity.
Defined.

(** *** Letter case *)

Lemma ci_eq_cons_inv x a y b :
  ci_eq (x :: a) (y :: b) -> toLowerChar x = toLowerChar y /\ ci_eq a b.
Proof. unfold ci_eq. simpl. intros [= H1 H2]. auto. Qed.

Lemma ci_eq_nil_l a : ci_eq [] a -> a = [].
Proof. unfold ci_eq. destruct a; [reflexivity | discriminate]. Qed.

Lemma ci_eq_nil_r a : ci_eq a [] -> a = [].
Proof. unfold ci_eq. destruct a; [reflexivity | discriminate]. Qed.

Lemma ci_eq_app a a' b b' : ci_eq a a' -> ci_eq b b' -> ci_eq (a ++ b) (a' ++ b').
Proof. unfold ci_eq, toLowerCase. rewrite !map_app. now intros -> ->. Qed.

Lemma ci_eq_firstn n a a' : ci_eq a a' -> ci_eq (firstn n a) (firstn n a').
Proof. unfold ci_eq, toLowerCase. rewrite <- !firstn_map. now intros ->. Qed.

Lemma ci_eq_skipn n a a' : ci_eq a a' -> ci_eq (skipn n a) (skipn n a').
Proof. unfold ci_eq, toLowerCase. rewrite <- !skipn_map. now intros ->. Qed.

Lemma prefix_ci_respects a : forall a' rest rest',
  ci_eq a a' -> ci_eq rest rest' -> prefix_ci a rest = prefix_ci a' rest'.
Proof.
  induction a as [| x a IH]; intros a' rest rest' Ha Hr.
  - apply ci_eq_nil_l in Ha. subst a'. reflexivity.
  - destruct a' as [| y a']; [apply ci_eq_nil_r in Ha; discriminate |].
    apply ci_eq_cons_inv in Ha as [Hxy Ha].
    destruct rest as [| c rest], rest' as [| c' rest'];
      try (apply ci_eq_nil_l in Hr; discriminate);
      try (apply ci_eq_nil_r in Hr; discriminate); [reflexivity |].
    apply ci_eq_cons_inv in Hr as [Hc Hr]. simpl.
    rewrite Hxy, Hc. f_equal. now apply IH.
Qed.

Lemma exec_sticky_respects alts alts' rest rest' :
  Forall2 ci_eq alts alts' -> ci_eq rest rest' ->
  exec_sticky alts rest = exec_sticky alts' rest'.
Proof.
  intros Halts Hr. induction Halts as [| a a' alts alts' Ha _ IH]; simpl;
    [reflexivity |].
  rewrite (prefix_ci_respects a a' rest rest' Ha Hr), (ci_eq_length _ _ Ha), IH.
  reflexivity.
Qed.

Lemma split_loop_respects alts alts' n :
  Forall2 ci_eq alts alts' ->
  forall pending pending' rest rest',
    length rest <= n -> ci_eq pending pending' -> ci_eq rest rest' ->
    Forall2 ci_eq (split_loop alts pending rest)
                  (split_loop alts' pending' rest').
Proof.
  intros Halts. induction n as [| n IH];
    intros pending pending' [| c rest] rest' Hlen Hp Hr; simpl in Hlen;
    try lia.
  1-2: apply ci_eq_nil_l in Hr; subst rest'; simp split_loop;
       repeat constructor; exact Hp.
  destruct rest' as [| c' rest']; [apply ci_eq_nil_r in Hr; discriminate |].
  pose proof (exec_sticky_respects alts alts' _ _ Halts Hr) as He.
  apply ci_eq_cons_inv in Hr as [Hc Hr].
  assert (Hcc : ci_eq [c] [c']) by (unfold ci_eq; simpl; now rewrite Hc).
  rewrite !split_loop_cons, <- He.
  destruct (exec_sticky alts (c :: rest)) as [[| k] |].
  - destruct pending as [| p ps], pending' as [| p' ps'];
      try (apply ci_eq_nil_l in Hp; discriminate);
      try (apply ci_eq_nil_r in Hp; discriminate).
    + apply IH; [lia | exact Hcc | exact Hr].
    + constructor; [exact Hp |]. constructor; [reflexivity |].
      apply IH; [lia | exact Hcc | exact Hr].
  - constructor; [exact Hp |]. constructor.
    + apply ci_eq_firstn. apply (ci_eq_app [c] [c'] rest rest' Hcc Hr).
    + apply IH; [pose proof (length_skipn k rest); lia | reflexivity |].
      apply ci_eq_skipn, Hr.
  - apply IH; [lia | | exact Hr]. now apply ci_eq_app.
Qed.

Lemma split_respects alts alts' text text' :
  Forall2 ci_eq alts alts' -> ci_eq text text' ->
  Forall2 ci_eq (split alts text) (split alts' text').
Proof.
  intros Halts Ht. destruct text as [| c text].
  - apply ci_eq_nil_l in Ht. subst text'. cbn [split].
    rewrite <- (exec_sticky_respects alts alts' [] [] Halts eq_refl).
    destruct (exec_sticky alts []); repeat constructor.
  - destruct text' as [| c' text']; [apply ci_eq_nil_r in Ht; discriminate |].
    cbn [split].
    apply (split_loop_respects alts alts' (S (length text)) Halts);
      [simpl; lia | reflexivity | exact Ht].
Qed.

Lemma insert_desc_respects v v' l l' :
  same_name v v' -> Forall2 same_name l l' ->
  Forall2 same_name (insert_desc v l) (insert_desc v' l').
Proof.
  intros Hv Hl. induction Hl as [| w w' l l' Hw Hl IH]; simpl.
  - repeat constructor. exact Hv.
  - rewrite (ci_eq_length _ _ Hv), (ci_eq_length _ _ Hw).
    destruct (length (name v') <? length (name w')); repeat constructor;
      assumption.
Qed.

Lemma sortedVillains_respects l l' :
  Forall2 same_name l l' ->
  Forall2 same_name (sortedVillains l) (sortedVillains l').
Proof.
  induction 1 as [| v v' l l' Hv _ IH]; simpl; [constructor |].
  now apply insert_desc_respects.
Qed.

Lemma render_part_respects sorted sorted' part part' :
  Forall2 same_name sorted sorted' -> ci_eq part part' ->
  same_shape (render_part sorted part) (render_part sorted' part').
Proof.
  intros Hs Hp. unfold render_part, matchedVillain.
  induction Hs as [| v v' l l' Hv _ IH]; simpl; [split; [reflexivity | exact Hp] |].
  assert (E : str_eqb (toLowerCase (name v)) (toLowerCase part)
              = str_eqb (toLowerCase (name v')) (toLowerCase part')).
  { unfold same_name, ci_eq in Hv. unfold ci_eq in Hp. now rewrite Hv, Hp. }
  rewrite <- E.
  destruct (str_eqb (toLowerCase (name v)) (toLowerCase part));
    [split; [reflexivity | exact Hp] | exact IH].
Qed.

(** X13.  The matcher ignores letter case throughout: when two texts agree
    up to case and two lists of terms agree name by name up to case, the
    two results have the same number of spans, and corresponding spans are
    of the same kind (both plain or both [Match]) with texts that agree up
    to case. *)
Theorem matching_ignores_case text text' terms terms' :
  ci_eq text text' -> Forall2 same_name terms terms' ->
  Forall2 same_shape (matcher text terms) (matcher text' terms').
Proof.
  intros Ht Hterms.
  destruct Hterms as [| v v' terms terms' Hv Hterms].
  { repeat constructor. exact Ht. }
  rewrite !matcher_cons.
  assert (Hsorted : Forall2 same_name (sortedVillains (v :: terms))
                                      (sortedVillains (v' :: terms')))
    by (apply sortedVillains_respects; now constructor).
  assert (Hparts : Forall2 ci_eq
            (split (map name (sortedVillains (v :: terms))) text)
            (split (map name (sortedVillains (v' :: terms'))) text')).
  { apply split_respects; [| exact Ht].
    clear -Hsorted. induction Hsorted; simpl; constructor; assumption. }
  induction Hparts as [| p p' ps ps' Hp _ IH]; simpl; constructor;
    [now apply render_part_respects | exact IH].
Qed.

Lemma matching_ignores_case_witness :
  Forall2 same_shape
    (matcher (s "contains MALTODEXTRIN") [term "Maltodextrin"])
    (matcher (s "Contains maltodextrin") [term "maltoDextrin"]).
Proof.
  apply matching_ignores_case.
  - reflexivity.
  - repeat constructor.
Defined.

(** *** Escaping *)

Lemma escapeRegExp_plain x :
  forallb (fun c => negb (isSpecial c)) x = true -> escapeRegExp x = x.
Proof.
  induction x as [| c x IH]; simpl; [reflexivity |].
  intros H. apply andb_true_iff in H as [Hc Hx].
  apply negb_true_iff in Hc.
  change (escapeRegExp (c :: x))
    with ((if isSpecial c then [backslash; c] else [c]) ++ escapeRegExp x).
  rewrite Hc, (IH Hx). reflexivity.
Qed.

(** X14.  Escaping loses nothing and lets nothing through: whatever
    characters the names contain, bars, parentheses and backslashes
    included, the pattern built from a non-empty list of names has exactly
    these names as its alternatives, each character taken literally, in the
    same order; and a name without any character of
    [.*+?^${}()|[]] or backslash is left as it is. *)
Theorem escaped_names_are_read_back names :
  names <> [] ->
  alternatives (s "(" ++ join (s "|") (map escapeRegExp names) ++ s ")")
  = names
  /\ forall x, In x names ->
       forallb (fun c => negb (isSpecial c)) x = true -> escapeRegExp x = x.
Proof.
  intros Hne. split; [| intros x _; apply escapeRegExp_plain].
  destruct names as [| a names]; [now elim Hne |].
  unfold alternatives.
  change (s "(" ++ ?x) with ("("%char :: x).
  change (Ascii.eqb "(" "(") with true. cbv iota.
  rewrite read_alts_join. reflexivity.
Qed.

Lemma escaped_names_are_read_back_witness :
  alternatives
    (s "(" ++ join (s "|") (map escapeRegExp [s "E171 (TiO2)"; s "a|b"; s "C.I. 77891"])
     ++ s ")")
  = [s "E171 (TiO2)"; s "a|b"; s "C.I. 77891"].
Proof.
  apply (proj1 (escaped_names_are_read_back
                  [s "E171 (TiO2)"; s "a|b"; s "C.I. 77891"]
                  ltac:(discriminate))).
Defined.

End MatcherMore.

(** ** The thinking indicator *)

Module ThinkingFacts.

Import Thinking.

Lemma currentStep_mod n : currentStep n = n mod 5.
Proof.
  induction n as [| n IH]; [reflexivity |].
  unfold currentStep in *. simpl Nat.iter. rewrite IH. unfold next.
  change (length steps) with 5.
  rewrite Nat.Div0.add_mod_idemp_l. f_equal. lia.
Qed.

(** X15.  The indicator never runs off its list: after any number of runs
    of its interval the step index is the number of runs modulo five, the
    text shown is one of the five messages, and five runs later the same
    message is shown again. *)
Theorem indicator_cycles n :
  currentStep n = n mod 5
  /\ (exists msg, shown n = Some msg /\ In msg steps)
  /\ shown (n + 5) = shown n.
Proof.
  split; [apply currentStep_mod |]. split.
  - unfold shown. rewrite currentStep_mod.
    destruct (nth_error steps (n mod 5)) as [msg |] eqn:Hn.
    + exists msg. split; [reflexivity |]. eapply nth_error_In, Hn.
    + apply nth_error_None in Hn. change (length steps) with 5 in Hn.
      pose proof (Nat.mod_upper_bound n 5). lia.
  - unfold shown. rewrite !currentStep_mod.
    replace (n + 5) with (n + 1 * 5) by lia.
    now rewrite Nat.Div0.mod_add.
Qed.

End ThinkingFacts.

(** ** The chat call *)

Module ChatFacts.

Import Invoker Notions Chat InvokerMore.

Lemma fallbackReply_not_empty : fallbackReply <> [].
Proof. discriminate. Qed.

Lemma chosenKey_some k env : k <> [] -> chosenKey (Some k) env = k.
Proof. destruct k; [intros H; now elim H | reflexivity]. Qed.

Lemma finalApiKey_blank env apiKey :
  blank (chosenKey apiKey env) = true -> finalApiKey env apiKey = [].
Proof. intros H. rewrite finalApiKey_chosen. now apply trim_blank. Qed.

Lemma finalApiKey_usable env apiKey :
  blank (chosenKey apiKey env) = false ->
  exists c k, finalApiKey env apiKey = c :: k.
Proof.
  intros H. rewrite finalApiKey_chosen.
  destruct (trim (chosenKey apiKey env)) as [| c k] eqn:Hk; [| eauto].
  apply trim_blank in Hk. congruence.
Qed.




Lemma chat_returns TypeError ToString stringified env sendMessage
    history newMessage context apiKey reply :
  chatWithCoPilot TypeError ToString stringified env sendMessage
    history newMessage context apiKey = Return reply -> reply <> [].
Proof.
  unfold chatWithCoPilot.
  destruct (finalApiKey env apiKey); [discriminate |].
  destruct (contextString TypeError ToString stringified context) as [ctx | e]; simpl; [| discriminate].
  destruct (sendMessage _) as [r | e]; [| discriminate].
  intros [= <-]. destruct (text r) as [[| c reply'] |]; discriminate.
Qed.

(** X16.  [chatWithCoPilot] never returns an empty reply: an answer without
    text is replaced by a fixed sentence.  With a key of white space only
    it throws the missing-key error without reading the context or
    contacting the collaborator; and when the context can be rendered, a
    failure of the collaborator is thrown through [handleGeminiError]. *)
Theorem chat_reply_is_never_empty TypeError ToString stringified env sendMessage
    history newMessage context apiKey :
  (forall reply,
     chatWithCoPilot TypeError ToString stringified env sendMessage
    history newMessage context apiKey = Return reply -> reply <> [])
  /\ (blank (chosenKey apiKey env) = true ->
      chatWithCoPilot TypeError ToString stringified env sendMessage
    history newMessage context apiKey = Throw missingKey)
  /\ (forall ctx e,
        blank (chosenKey apiKey env) = false ->
        contextString TypeError ToString stringified context = Return ctx ->
        (forall request, sendMessage request = Throw e) ->
        chatWithCoPilot TypeError ToString stringified env sendMessage
    history newMessage context apiKey = Throw (handleGeminiError e)).
Proof.
  split; [intros reply; apply chat_returns |]. split.
  - intros H. unfold chatWithCoPilot. now rewrite (finalApiKey_blank _ _ H).
  - intros ctx e Hk Hctx Hsend. unfold chatWithCoPilot.
    destruct (finalApiKey_usable _ _ Hk) as (c & k & ->).
    rewrite Hctx. simpl. now rewrite Hsend.
Qed.


Lemma chat_reply_is_never_empty_witness :
  chatWithCoPilot Error (fun _ => []) (fun _ => []) None
    (fun _ => Return {| text := None |}) [] (s "Is it vegan?") None
    (Some (s "   "))
  = Throw missingKey.
Proof.
  apply (proj1 (proj2 (chat_reply_is_never_empty Error
                         (fun _ => []) (fun _ => []) None
                         (fun _ => Return {| text := None |})
                         [] (s "Is it vegan?") None (Some (s "   "))))).
  reflexivity.
Defined.


End ChatFacts.

(** ** The application shell *)

Module AppFacts.

Import Invoker Notions Chat App InvokerMore ChatFacts.

Lemma str_eqb_nil x : str_eqb x [] = true <-> x = [].
Proof. unfold str_eqb. destruct (list_eq_dec ascii_dec x []); intuition congruence. Qed.

(** *** The key *)

(** X18.  Saving a key stores it trimmed, in the state and in
    [localStorage] alike, and closes the dialog; reloading the page, or
    opening the dialog and saving again without typing, gives the same key.
    A saved key that is not empty is the key the invoker uses, as it is;
    after saving white space only the key is empty and the invoker falls
    back on the environment's key. *)
Theorem saved_key_round_trip env a :
  let a' := saveApiKey a in
  apiKey a' = trim (tempKey a)
  /\ storedKey a' = Some (apiKey a')
  /\ isKeyModalOpen a' = false
  /\ apiKey (initialApp (storedKey a')) = apiKey a'
  /\ apiKey (saveApiKey (openKeyModal a')) = apiKey a'
  /\ (blank (tempKey a) = false ->
      apiKey a' <> [] /\ finalApiKey env (Some (apiKey a')) = apiKey a')
  /\ (blank (tempKey a) = true ->
      apiKey a' = [] /\ finalApiKey env (Some (apiKey a')) = finalApiKey env None).
Proof.
  intros a'. unfold a', saveApiKey, openKeyModal. simpl.
  split; [reflexivity |]. split; [reflexivity |]. split; [reflexivity |].
  split; [reflexivity |]. split; [apply trim_trim |]. split.
  - intros Hb.
    assert (Hne : trim (tempKey a) <> []).
    { intros H0. apply trim_blank in H0. congruence. }
    split; [exact Hne |].
    rewrite finalApiKey_chosen, chosenKey_some by exact Hne. apply trim_trim.
  - intros Hb. apply trim_blank in Hb. rewrite Hb. split; reflexivity.
Qed.

Lemma saved_key_round_trip_witness :
  finalApiKey (Some (s "env-key"))
    (Some (apiKey (saveApiKey (setTempKey (s "  AIzaSy-123 ") (initialApp None)))))
  = s "AIzaSy-123".
Proof.
  destruct (saved_key_round_trip (Some (s "env-key"))
              (setTempKey (s "  AIzaSy-123 ") (initialApp None)))
    as (Hk & _ & _ & _ & _ & Huse & _).
  rewrite (proj2 (Huse eq_refl)). reflexivity.
Defined.

Lemma noKey_chosen env a : noKey env a = true <-> liveScannerKey env a = [].
Proof.
  unfold noKey, liveScannerKey, chosenKey, or_else, Scanner.truthy.
  rewrite andb_true_iff, negb_true_iff, str_eqb_nil.
  destruct (apiKey a) as [| c k]; destruct env as [[| d e] |];
    intuition (try discriminate; try reflexivity).
Qed.

(** X19.  The live scanner is only ever started with a key: when neither
    the saved key nor the environment's key is set, [handleStartLive] shows
    an alert and opens the key dialog instead, and otherwise it enters the
    live scan, where the [apiKey] prop, the saved key or failing that the
    environment's, is not empty. *)
Theorem live_scan_has_a_key env a :
  (liveScannerKey env a = [] ->
   handleStartLive env a = (openKeyModal a, [Alert keyFirst]))
  /\ (liveScannerKey env a <> [] ->
      handleStartLive env a = (setState LIVE_SCAN a, []))
  /\ (state (fst (handleStartLive env a)) = LIVE_SCAN ->
      state a <> LIVE_SCAN -> liveScannerKey env a <> []).
Proof.
  unfold handleStartLive. pose proof (noKey_chosen env a) as Hk.
  destruct (noKey env a); repeat split.
  - intros H. rewrite (proj1 Hk eq_refl) in H. now elim H.
  - simpl. intros H1 H2 _. now elim H2.
  - intros H. apply Hk in H. discriminate.
  - simpl. intros _ _ H. apply Hk in H. discriminate.
Qed.

Lemma live_scan_has_a_key_witness :
  handleStartLive (Some (s "env-key")) (initialApp None)
  = (setState LIVE_SCAN (initialApp None), []).
Proof.
  apply (proj1 (proj2 (live_scan_has_a_key (Some (s "env-key"))
                         (initialApp None)))).
  discriminate.
Defined.

(** X20.  The guards of the application and of the scanner test the key
    for emptiness, the invoker trims it first.  A key of white space only
    that is not empty therefore gets past both guards and is refused by
    the invoker: [handleStartLive] enters the live scan with it as the
    [apiKey] prop, every call the scan loop issues fails with the
    missing-key error, and the failure leaves the scanner as it was,
    [isAnalyzing] apart: no cooldown, no result, no stored error.  Keys
    are saved trimmed, so with a trimmed key in the state this is the case
    of no saved key and an environment key of white space only. *)
Theorem blank_key_passes_the_guards
    JSON_parse env generateContent a now frame st st1 inv t :
  liveScannerKey env a <> [] -> blank (liveScannerKey env a) = true ->
  Scanner.tick (liveScannerKey env a) now frame st = (st1, Some inv) ->
  handleStartLive env a = (setState LIVE_SCAN a, [])
  /\ (apiKey a = trim (apiKey a) ->
      apiKey a = [] /\ env = Some (liveScannerKey env a))
  /\ invoke JSON_parse env generateContent inv = Throw missingKey
  /\ Scanner.resolve (invoke JSON_parse env generateContent inv) t st1
     = Scanner.setIsAnalyzing false st1.
Proof.
  intros Hne Hblank Htick.
  assert (Hinv : inv = Scanner.issued (liveScannerKey env a) frame st).
  { pose proof (ScanLoopMore.tick_decision (liveScannerKey env a) now frame st)
      as Hd.
    rewrite Htick in Hd. simpl in Hd.
    destruct (may_issue _ _ _ _); congruence. }
  assert (Hthrow : invoke JSON_parse env generateContent inv = Throw missingKey).
  { rewrite Hinv. unfold invoke, analyzeImage. simpl Scanner.inv_apiKey.
    rewrite finalApiKey_blank; [reflexivity |].
    rewrite chosenKey_some by exact Hne. exact Hblank. }
  split; [| split; [| split]].
  - apply (proj1 (proj2 (live_scan_has_a_key env a))). exact Hne.
  - intros Htrim. destruct (apiKey a) as [| c k] eqn:Hk.
    + split; [reflexivity |].
      unfold liveScannerKey, chosenKey, or_else in *. rewrite Hk in *.
      destruct env as [[| d e] |]; simpl in *;
        [now elim Hne | reflexivity | now elim Hne].
    + exfalso.
      assert (Hsame : liveScannerKey env a = c :: k).
      { unfold liveScannerKey. rewrite Hk. now apply chosenKey_some. }
      rewrite Hsame in Hblank. apply trim_blank in Hblank.
      rewrite Hblank in Htrim. discriminate.
  - exact Hthrow.
  - rewrite Hthrow. reflexivity.
Qed.

Lemma blank_key_passes_the_guards_witness :
  let a := saveApiKey (setTempKey (s "  ") (initialApp None)) in
  apiKey a = []
  /\ handleStartLive (Some (s " ")) a = (setState LIVE_SCAN a, [])
  /\ invoke parseJSON (Some (s " ")) (answering (s "{}"))
       (Scanner.issued (s " ") Scanner.ready Scanner.streaming)
     = Throw missingKey.
Proof.
  intros a.
  destruct (@blank_key_passes_the_guards parseJSON (Some (s " "))
              (answering (s "{}")) a
              5000 Scanner.ready Scanner.streaming
              (Scanner.setIsAnalyzing true Scanner.streaming)
              (Scanner.issued (s " ") Scanner.ready Scanner.streaming) 5400
              ltac:(discriminate) eq_refl eq_refl)
    as (Hlive & Hsaved & Hthrow & _).
  split; [exact (proj1 (Hsaved eq_refl)) |]. split; [exact Hlive | exact Hthrow].
Defined.

(** *** Reporting a failure *)

Lemma handleError_fields toStringOf e a :
  let a' := fst (handleError toStringOf e a) in
  state a' = ERROR /\ result a' = result a /\ chatHistory a' = chatHistory a
  /\ apiKey a' = apiKey a /\ isKeyModalOpen a' = isKeyModalOpen a.
Proof.
  unfold handleError.
  destruct (Scanner.isQuota e); [repeat split |].
  destruct (_ || _ || _); [repeat split |].
  destruct (messageIncludes e "API Key is missing"); repeat split.
Qed.

(** X21.  [handleError] always ends in the error state and leaves the
    result and the key alone; the message is one of four, and the key
    dialog is scheduled at most once (after 1500 ms or after 500 ms).  A
    failure that [handleGeminiError] classified as quota is reported as
    quota and never schedules the key dialog, whatever else its text
    says; the missing-key error of the invoker is reported as such and
    schedules the dialog after 500 ms. *)
Theorem error_reports toStringOf e a :
  let r := handleError toStringOf e a in
  state (fst r) = ERROR
  /\ result (fst r) = result a
  /\ apiKey (fst r) = apiKey a
  /\ In (errorMessage (fst r))
        [genericMessage; quotaMessage; permissionMessage; missingKeyMessage]
  /\ In (snd r) [[]; [KeyModalAfter 1500]; [KeyModalAfter 500]]
  /\ (quotaMarker (error_text e) = true ->
      handleError toStringOf (handleGeminiError e) a
      = (setState ERROR (setErrorMessage quotaMessage a), []))
  /\ (includes (toStringOf missingKey) (s "PERMISSION_DENIED") = false ->
      handleError toStringOf missingKey a
      = (setState ERROR (setErrorMessage missingKeyMessage a),
         [KeyModalAfter 500])).
Proof.
  intros r.
  destruct (handleError_fields toStringOf e a) as (Hs & Hr & _ & Hk & _).
  split; [exact Hs |]. split; [exact Hr |]. split; [exact Hk |].
  split; [| split; [| split]].
  - unfold r, handleError.
    destruct (Scanner.isQuota e); [simpl; auto |].
    destruct (_ || _ || _); [simpl; auto |].
    destruct (messageIncludes e "API Key is missing"); simpl; auto.
  - unfold r, handleError.
    destruct (Scanner.isQuota e); [simpl; auto |].
    destruct (_ || _ || _); [simpl; auto |].
    destruct (messageIncludes e "API Key is missing"); simpl; auto.
  - intros Hm. rewrite (handleGeminiError_marked e Hm). reflexivity.
  - intros Hperm. unfold handleError.
    change (Scanner.isQuota missingKey) with false.
    change (messageIncludes missingKey "403") with false.
    change (messageIncludes missingKey "The caller does not have permission")
      with false.
    change (messageIncludes missingKey "API Key is missing") with true.
    rewrite Hperm. reflexivity.
Qed.

Lemma error_reports_witness :
  handleError (fun _ => s "Error: 403 quota exceeded")
    (handleGeminiError (Error "403 quota exceeded")) (initialApp None)
  = (setState ERROR (setErrorMessage quotaMessage (initialApp None)), []).
Proof.
  apply (proj1 (proj2 (proj2 (proj2 (proj2 (proj2
           (error_reports (fun _ => s "Error: 403 quota exceeded")
              (Error "403 quota exceeded") (initialApp None)))))))).
  reflexivity.
Defined.

(** *** Analyzing *)






(** *** Chatting *)

(** X23.  [handleSendMessage], run to its end.  White space alone sends
    nothing and changes nothing.  Otherwise the chat history grows by
    exactly two messages, the user's text followed by a reply of the model
    that is never empty (the apology when the call failed), the input is
    cleared, the loading flag is down again, and the result and the screen
    stay as they were. *)
Theorem chat_history_grows_by_two
    env sendMessage TypeError ToString stringified a :
  let a' := handleSendMessage env sendMessage TypeError ToString stringified
              a in
  (blank (chatInput a) = true -> a' = a)
  /\ (blank (chatInput a) = false ->
      exists reply,
        reply <> []
        /\ chatHistory a'
           = chatHistory a ++ [userMessage (chatInput a); modelMessage reply]
        /\ chatInput a' = []
        /\ isChatLoading a' = false
        /\ result a' = result a
        /\ state a' = state a
        /\ (forall e,
              chatWithCoPilot TypeError ToString stringified env sendMessage
                (chatHistory a ++ [userMessage (chatInput a)]) (chatInput a)
                (chatContext a) (Some (apiKey a)) = Throw e ->
              reply = apology)).
Proof.
  intros a'. unfold a', handleSendMessage. split.
  - intros H. apply trim_blank in H. now rewrite H.
  - intros H. destruct (trim (chatInput a)) as [| c k] eqn:Ht.
    { apply trim_blank in Ht. congruence. }
    fold (userMessage (chatInput a)).
    destruct (chatWithCoPilot _ _ _ _ _ _ _ _ _) as [reply | e] eqn:Hchat.
    + exists reply. split; [exact (chat_returns _ _ _ _ _ _ _ _ _ _ Hchat) |].
      simpl. rewrite <- app_assoc. repeat split. discriminate.
    + exists apology. split; [discriminate |].
      simpl. rewrite <- app_assoc. repeat split.
Qed.

Lemma chat_history_grows_by_two_witness :
  length (chatHistory
            (handleSendMessage None (fun _ => Return {| text := None |})
               Error (fun _ => []) (fun _ => [])
               (setChatInput (s "Is it vegan?")
                  (setApiKey (s "k") (initialApp None)))))
  = 2.
Proof.
  destruct (proj2 (chat_history_grows_by_two None
                     (fun _ => Return {| text := None |})
                     Error (fun _ => []) (fun _ => [])
                     (setChatInput (s "Is it vegan?")
                        (setApiKey (s "k") (initialApp None))))
              eq_refl) as (reply & _ & Hh & _).
  rewrite Hh. reflexivity.
Defined.

End AppFacts.
